(** * ts-command-line: CommandLineParameterProvider

    A shallow embedding of
    [libraries/ts-command-line/src/CommandLineParameterProvider.ts]:
    the declaration phase ([defineFlagParameter] ... [defineOptionParameter],
    [_getKey], [_createParameter]) and the resolution phase
    ([_processParsedData], [validateParameters]).

    JavaScript objects that are shared and mutated (the parameter handles,
    reachable both from [_parameters] and from [_parameterMetadata]) live in
    an explicit heap and are referred to by their address.  Exceptions do not
    roll the state back, so a computation returns its completion together
    with the state it leaves behind. *)

From Stdlib Require Import ZArith NArith String List Lia.
From stdpp Require Import base option list strings gmap pretty.

Local Open Scope string_scope.

(** ** JavaScript values and small library functions *)

(** The values a parameter can carry ([TValue] is instantiated with
    [boolean], [string], [string[]] and [number]; the tokenizer reports an
    option that was not given as [null]).  [undefined] is the [None] of
    [option Value]. *)
Inductive Value : Type :=
  | VNull
  | VBoolean (b : bool)
  | VNumber (z : Z)
  | VString (s : string)
  | VArray (l : list string).

(** The type parameter [TValue] of the source, with its embedding in [any]. *)
Class TValue (T : Type) := to_any : T → Value.
Global Instance TValue_boolean : TValue bool := VBoolean.
Global Instance TValue_number : TValue Z := VNumber.
Global Instance TValue_string : TValue string := VString.
Global Instance TValue_string_array : TValue (list string) := VArray.

(** Truthiness of a [string | undefined]: the empty string is falsy. *)
Definition truthy (s : option string) : bool :=
  match s with
  | Some EmptyString => false
  | Some _ => true
  | None => false
  end.

(** [Array.prototype.join]. *)
Fixpoint join (sep : string) (l : list string) : string :=
  match l with
  | [] => EmptyString
  | [x] => x
  | x :: rest => x +:+ sep +:+ join sep rest
  end.

(** [Array.prototype.toString] joins with a comma. *)
Definition Array_toString (l : list string) : string := join "," l.

(** [Array.prototype.indexOf(x) === -1]. *)
Definition indexOf_is_minus_one (l : list string) (x : string) : bool :=
  negb (bool_decide (x ∈ l)).

(** A JavaScript [Map] with string keys, in insertion order: [set] on a key
    that is present replaces the value where it stands, [set] on a new key
    appends.  [forEach] visits the entries in list order.  The same
    discipline is followed by the own properties of an object literal. *)
Module JsMap.

Fixpoint set {V : Type} (k : string) (v : V) (m : list (string * V)) : list (string * V) :=
  match m with
  | [] => [(k, v)]
  | (k', v') :: rest =>
      if String.eqb k k' then (k, v) :: rest else (k', v') :: set k v rest
  end.

End JsMap.

(** ** The data model *)

(** Modelled from the spec: the declarations of [CommandLineDefinition.ts]
    (spec section 3, Parameter Definition); the fields are the ones the
    provider reads.  [required] and [defaultValue] are optional. *)
Record IBaseCommandLineDefinition (T : Type) := {
  parameterLongName : string;
  parameterShortName : option string;
  description : string;
  required : option bool;
  defaultValue : option T
}.
Arguments parameterLongName {T} _.
Arguments parameterShortName {T} _.
Arguments description {T} _.
Arguments required {T} _.
Arguments defaultValue {T} _.

(** Modelled from the spec: the definitions of the kinds whose optional
    [key] the provider reads (string, string list, integer). *)
Record IKeyedCommandLineDefinition (T : Type) := {
  keyed_base :> IBaseCommandLineDefinition T;
  key : option string
}.
Arguments keyed_base {T} _.
Arguments key {T} _.

Definition ICommandLineFlagDefinition := IBaseCommandLineDefinition bool.
Definition ICommandLineStringDefinition := IKeyedCommandLineDefinition string.
Definition ICommandLineStringListDefinition := IKeyedCommandLineDefinition (list string).
Definition ICommandLineIntegerDefinition := IKeyedCommandLineDefinition Z.

(** Modelled from the spec: the definition of the enumerated-option kind,
    with its [options]; the provider tests the array for presence, so it is
    optional here. *)
Record ICommandLineOptionDefinition := {
  option_base :> IBaseCommandLineDefinition string;
  options : option (list string)
}.

(** The raw key → value mapping produced by the tokenizer. *)
Abbreviation ICommandLineParserData := (gmap string Value).

Definition IConverterFunction := option Value → option Value.

(** Modelled from the spec: the class [CommandLineParameter] of
    [CommandLineParameter.ts] (spec section 3, Parameter, and section 4.4
    step 1): a handle with its key, an optional converter and a value that
    is unset until [_setValue] writes it. *)
Record CommandLineParameter := {
  _key : string;
  _converter : option IConverterFunction;
  value : option Value
}.

(** The converter of a parameter, the identity when none was supplied. *)
Definition apply_converter (p : CommandLineParameter) (raw : option Value) : option Value :=
  match _converter p with
  | Some convert => convert raw
  | None => raw
  end.

(** Modelled from the spec: [CommandLineParameter._setValue] sets the value
    from the raw mapping entry for the parameter's key, through the
    converter when one was supplied. *)
Definition CommandLineParameter_setValue
    (data : ICommandLineParserData) (p : CommandLineParameter) : CommandLineParameter :=
  {| _key := _key p;
     _converter := _converter p;
     value := apply_converter p (data !! _key p) |}.

(** Parameter handles are heap addresses. *)
Abbreviation Handle := nat.

Record IParameterMetadata := {
  parameter : Handle;
  meta_required : bool;
  meta_defaultValue : option Value
}.

(** [argparse.ArgumentOptions]: an object literal, as its list of own
    properties. *)
Inductive OptionValue : Type :=
  | OString (s : string)
  | OStrings (l : list string)
  | OUndefined.

Abbreviation ArgumentOptions := (list (string * OptionValue)).

Definition OptionValue_of (s : option string) : OptionValue :=
  match s with
  | Some s => OString s
  | None => OUndefined
  end.

(** The underlying tokenizer (argparse) is an external collaborator of
    which the provider only calls [addArgument(names, options)]; a parser is
    represented by the sequence of switches it has registered. *)
Abbreviation ArgumentParser := (list (list string * ArgumentOptions)).

(** The option strings a parser has registered. *)
Definition option_strings (parser : ArgumentParser) : list string :=
  parser ≫= fst.

(** Modelled from the spec: the collision detection of the tokenizer, which
    is not under [src/] (spec section 4.2: collision detection is delegated
    to the underlying tokenizer; section 3: a long name is unique across a
    provider instance).  [addArgument] refuses a switch one of whose names
    is registered already. *)
Definition conflicting (parser : ArgumentParser) (names : list string) : bool :=
  bool_decide (Exists (λ name, name ∈ option_strings parser) names).

(** Whatever else makes [addArgument] throw (a malformed option string, an
    unknown action, ...) is the tokenizer's business and is taken as a
    parameter: given the parser, the names and the options, whether the
    call is rejected. *)
Abbreviation Tokenizer := (ArgumentParser → list string → ArgumentOptions → bool).

Record CommandLineParameterProvider := {
  _argumentParser : ArgumentParser;
  _parameterMetadata : list (string * IParameterMetadata);
  _parameters : list Handle;
  _keys : gmap string string
}.

(** The state a method runs in: the static field [_keyCounter] (a
    JavaScript number holding a non-negative integer; its increment is exact
    below 2^53 and is taken to be exact here), the heap of parameter
    objects, the provider instance bound to [this], and the tokenizer
    library the process has loaded. *)
Record World := {
  _keyCounter : N;
  heap : list CommandLineParameter;
  this : CommandLineParameterProvider;
  argparse_rejects : Tokenizer
}.

(** ** Computations that may throw *)

(** What the source throws: [new Error(...)] from [defineOptionParameter]
    (the spec's [InvalidDefinitionError]), the string passed to
    [colors.red] from [_getKey] (the spec's [DuplicateKeyError]) and
    [new Error(...)] from [validateParameters] (the spec's
    [MissingRequiredParametersError]); each carries its message text.
    [ArgumentError] is what the tokenizer throws from [addArgument]; its
    text is the tokenizer's. *)
Inductive Exception : Type :=
  | InvalidDefinitionError (message : string)
  | DuplicateKeyError (text : string)
  | MissingRequiredParametersError (message : string)
  | ArgumentError.

Inductive Completion (A : Type) : Type :=
  | Normal (a : A)
  | Throw (e : Exception).
Arguments Normal {A} a.
Arguments Throw {A} e.

Definition M (A : Type) : Type := World → Completion A * World.

Global Instance M_ret : MRet M := λ A a w, (Normal a, w).
Global Instance M_bind : MBind M := λ A B k m w,
  match m w with
  | (Normal a, w') => k a w'
  | (Throw e, w') => (Throw e, w')
  end.

Definition throw {A : Type} (e : Exception) : M A := λ w, (Throw e, w).
Definition gets {A : Type} (f : World → A) : M A := λ w, (Normal (f w), w).
Definition modify (f : World → World) : M unit := λ w, (Normal (), f w).

(** [for (const x of xs) body(x)] and [Map.forEach]. *)
Fixpoint forEach {A : Type} (body : A → M unit) (xs : list A) : M unit :=
  match xs with
  | [] => mret ()
  | x :: rest => body x ;; forEach body rest
  end.

(** State updates. *)
Definition set_this (f : CommandLineParameterProvider → CommandLineParameterProvider)
    (w : World) : World :=
  {| _keyCounter := _keyCounter w; heap := heap w; this := f (this w);
     argparse_rejects := argparse_rejects w |}.

Definition set_heap (f : list CommandLineParameter → list CommandLineParameter)
    (w : World) : World :=
  {| _keyCounter := _keyCounter w; heap := f (heap w); this := this w;
     argparse_rejects := argparse_rejects w |}.

(** [CommandLineParameterProvider._keyCounter++]. *)
Definition post_increment_keyCounter : M N := λ w,
  (Normal (_keyCounter w),
   {| _keyCounter := N.succ (_keyCounter w); heap := heap w; this := this w;
      argparse_rejects := argparse_rejects w |}).

(** [new CommandLineParameter(key, converter)]: a fresh object. *)
Definition new_CommandLineParameter (key : string)
    (converter : option IConverterFunction) : M Handle := λ w,
  (Normal (length (heap w)),
   set_heap (λ h, (h ++ [ {| _key := key; _converter := converter; value := None |} ])%list) w).

(** [parameter._setValue(data)], [parameter.value], [parameter._key]. *)
Definition _setValue (parameter : Handle) (data : ICommandLineParserData) : M unit :=
  modify (set_heap (alter (CommandLineParameter_setValue data) parameter)).

Definition value_of (w : World) (parameter : Handle) : option Value :=
  heap w !! parameter ≫= value.

Definition key_of (w : World) (parameter : Handle) : option string :=
  _key <$> heap w !! parameter.

(** ** The provider *)

(** The double quote character of the messages. *)
Definition dquote : string := String (Ascii.ascii_of_nat 34) EmptyString.

(** [constructor()]: no parameters, empty metadata and key maps.  The field
    [_argumentParser] is assigned by the concrete subclass; a provider
    starts with a tokenizer that has no switch registered. *)
Definition constructor : CommandLineParameterProvider :=
  {| _argumentParser := [];
     _parameterMetadata := [];
     _parameters := [];
     _keys := ∅ |}.

(** [!!definition.required]. *)
Definition double_negation (b : option bool) : bool :=
  match b with
  | Some true => true
  | _ => false
  end.

Definition DuplicateKey_text (parameterLongName existingKey : string) : string :=
  "The parameter " +:+ dquote +:+ parameterLongName +:+ dquote +:+
  " tried to define a key which was already " +:+
  "defined by the " +:+ dquote +:+ existingKey +:+ dquote +:+
  " parameter. Ensure that the keys values are unique.".

(** [_getKey(parameterLongName, key = 'key_' + (_keyCounter++).toString())].
    The default initialiser runs, and bumps the static counter, exactly when
    the argument is [undefined]. *)
Definition _getKey (parameterLongName : string) (key : option string) : M string :=
  key ← match key with
        | Some key => mret key
        | None => n ← post_increment_keyCounter; mret ("key_" +:+ pretty n)
        end;
  existingKey ← gets (λ w, _keys (this w) !! key);
  if truthy existingKey then
    throw (DuplicateKeyError (DuplicateKey_text parameterLongName (default EmptyString existingKey)))
  else
    modify (set_this (λ p,
      {| _argumentParser := _argumentParser p;
         _parameterMetadata := _parameterMetadata p;
         _parameters := _parameters p;
         _keys := <[key := parameterLongName]> (_keys p) |})) ;;
    mret key.

(** [this._parameters.push(result)]. *)
Definition push_parameter (result : Handle) : M unit :=
  modify (set_this (λ p,
    {| _argumentParser := _argumentParser p;
       _parameterMetadata := _parameterMetadata p;
       _parameters := (_parameters p ++ [result])%list;
       _keys := _keys p |})).

(** [this._argumentParser.addArgument(names, options)]: the tokenizer
    throws when a name is registered already or when it rejects the call
    for a reason of its own, and registers the switch otherwise. *)
Definition addArgument (names : list string) (opts : ArgumentOptions) : M unit :=
  refused ← gets (λ w, conflicting (_argumentParser (this w)) names
                       || argparse_rejects w (_argumentParser (this w)) names opts);
  if (refused : bool) then throw ArgumentError
  else
    modify (set_this (λ p,
      {| _argumentParser := (_argumentParser p ++ [(names, opts)])%list;
         _parameterMetadata := _parameterMetadata p;
         _parameters := _parameters p;
         _keys := _keys p |})).

(** [this._parameterMetadata.set(name, metadata)]. *)
Definition set_parameterMetadata (name : string) (metadata : IParameterMetadata) : M unit :=
  modify (set_this (λ p,
    {| _argumentParser := _argumentParser p;
       _parameterMetadata := JsMap.set name metadata (_parameterMetadata p);
       _parameters := _parameters p;
       _keys := _keys p |})).

(** The [names] array of [_createParameter]: the short name, when truthy,
    then the long name. *)
Definition switch_names {T : Type} (definition : IBaseCommandLineDefinition T) : list string :=
  ((if truthy (parameterShortName definition)
    then [default EmptyString (parameterShortName definition)]
    else []) ++ [parameterLongName definition])%list.

(** [baseArgparseOptions], after the own properties of [argparseOptions]
    (if any) have been copied over it. *)
Definition merged_argparseOptions (help dest : string)
    (argparseOptions : option ArgumentOptions) : ArgumentOptions :=
  foldl (λ baseArgparseOptions '(keyVal, v), JsMap.set keyVal v baseArgparseOptions)
        [("help", OString help); ("dest", OString dest)]
        (default [] argparseOptions).

Definition _createParameter {T : Type} `{!TValue T}
    (definition : IBaseCommandLineDefinition T)
    (argparseOptions : option ArgumentOptions)
    (key : option string)
    (converter : option IConverterFunction) : M Handle :=
  let names := switch_names definition in
  key ← _getKey (parameterLongName definition) key;
  result ← new_CommandLineParameter key converter;
  push_parameter result ;;
  addArgument names (merged_argparseOptions (description definition) key argparseOptions) ;;
  set_parameterMetadata (parameterLongName definition)
    {| meta_required := double_negation (required definition);
       parameter := result;
       meta_defaultValue := to_any <$> defaultValue definition |} ;;
  mret result.

Definition defineFlagParameter (definition : ICommandLineFlagDefinition) : M Handle :=
  _createParameter definition (Some [("action", OString "storeTrue")]) None None.

Definition defineStringParameter (definition : ICommandLineStringDefinition) : M Handle :=
  _createParameter (keyed_base definition) None (key definition) None.

Definition defineStringListParameter (definition : ICommandLineStringListDefinition) : M Handle :=
  _createParameter (keyed_base definition) (Some [("action", OString "append")])
    (key definition) None.

Definition defineIntegerParameter (definition : ICommandLineIntegerDefinition) : M Handle :=
  _createParameter (keyed_base definition) (Some [("type", OString "int")])
    (key definition) None.

Definition defineOptionParameter (definition : ICommandLineOptionDefinition) : M Handle :=
  match options definition with
  | None =>
      throw (InvalidDefinitionError
        "When defining an option parameter, the options array must be defined.")
  | Some opts =>
      if truthy (defaultValue definition)
         && indexOf_is_minus_one opts (default EmptyString (defaultValue definition))
      then
        throw (InvalidDefinitionError
          ("Could not find default value " +:+ dquote +:+
           default EmptyString (defaultValue definition) +:+ dquote +:+ " " +:+
           "in the array of available options: " +:+ Array_toString opts))
      else
        _createParameter (option_base definition)
          (Some [("choices", OStrings opts);
                 ("defaultValue", OptionValue_of (defaultValue definition))])
          None None
  end.

(** The object literal [{ action: '', [key]: defaultValue }]. *)
Definition default_data (key : string) (defaultValue : Value) : ICommandLineParserData :=
  <[key := defaultValue]> {["action" := VString EmptyString]}.

(** The body of the [forEach] of [_processParsedData]. *)
Definition fill_default (entry : string * IParameterMetadata) : M unit :=
  let parameterMetadata := entry.2 in
  v ← gets (λ w, value_of w (parameter parameterMetadata));
  k ← gets (λ w, key_of w (parameter parameterMetadata));
  match v, meta_defaultValue parameterMetadata with
  | None, Some d =>
      _setValue (parameter parameterMetadata) (default_data (default EmptyString k) d)
  | _, _ => mret ()
  end.

(** The two loops of [_processParsedData]: the value fill over
    [this._parameters], then the default fill over [this._parameterMetadata]. *)
Definition value_fill (data : ICommandLineParserData) : M unit :=
  parameters ← gets (λ w, _parameters (this w));
  forEach (λ parameter, _setValue parameter data) parameters.

Definition default_fill : M unit :=
  metadata ← gets (λ w, _parameterMetadata (this w));
  forEach fill_default metadata.

Definition _processParsedData (data : ICommandLineParserData) : M unit :=
  value_fill data ;; default_fill.

(** The array built by the [forEach] of [validateParameters]. *)
Definition missingParameterLongNames (w : World) : list string :=
  foldl (λ missing '(parameterLongName, parameterMetadata),
           if bool_decide (value_of w (parameter parameterMetadata) = None)
              && meta_required parameterMetadata
           then (missing ++ [parameterLongName])%list
           else missing)
        [] (_parameterMetadata (this w)).

Definition validateParameters : M unit :=
  missing ← gets missingParameterLongNames;
  if (0 <? length missing)%nat then
    throw (MissingRequiredParametersError
      ("Missing required parameters: " +:+ join ", " missing))
  else mret ().

(** ** Declarations, uniformly *)

(** One call of a [define...Parameter] method. *)
Inductive Declaration : Type :=
  | FlagParameter (definition : ICommandLineFlagDefinition)
  | StringParameter (definition : ICommandLineStringDefinition)
  | StringListParameter (definition : ICommandLineStringListDefinition)
  | IntegerParameter (definition : ICommandLineIntegerDefinition)
  | OptionParameter (definition : ICommandLineOptionDefinition).

Definition define (d : Declaration) : M Handle :=
  match d with
  | FlagParameter definition => defineFlagParameter definition
  | StringParameter definition => defineStringParameter definition
  | StringListParameter definition => defineStringListParameter definition
  | IntegerParameter definition => defineIntegerParameter definition
  | OptionParameter definition => defineOptionParameter definition
  end.

(** The parts of a declaration the provider looks at. *)
Definition longName_of (d : Declaration) : string :=
  match d with
  | FlagParameter x => parameterLongName x
  | StringParameter x => parameterLongName x
  | StringListParameter x => parameterLongName x
  | IntegerParameter x => parameterLongName x
  | OptionParameter x => parameterLongName x
  end.

(** The explicit key handed to [_getKey]: only the string, string list and
    integer kinds pass [definition.key] on. *)
Definition explicitKey_of (d : Declaration) : option string :=
  match d with
  | FlagParameter _ => None
  | StringParameter x => key x
  | StringListParameter x => key x
  | IntegerParameter x => key x
  | OptionParameter _ => None
  end.

Definition required_of (d : Declaration) : bool :=
  match d with
  | FlagParameter x => double_negation (required x)
  | StringParameter x => double_negation (required x)
  | StringListParameter x => double_negation (required x)
  | IntegerParameter x => double_negation (required x)
  | OptionParameter x => double_negation (required x)
  end.

Definition defaultValue_of (d : Declaration) : option Value :=
  match d with
  | FlagParameter x => to_any <$> defaultValue x
  | StringParameter x => to_any <$> defaultValue x
  | StringListParameter x => to_any <$> defaultValue x
  | IntegerParameter x => to_any <$> defaultValue x
  | OptionParameter x => to_any <$> defaultValue x
  end.

(** The arguments of the [addArgument] call of a declaration that was given
    the key [k]. *)
Definition registration_of (d : Declaration) (k : string) : list string * ArgumentOptions :=
  match d with
  | FlagParameter x =>
      (switch_names x,
       merged_argparseOptions (description x) k (Some [("action", OString "storeTrue")]))
  | StringParameter x =>
      (switch_names x, merged_argparseOptions (description x) k None)
  | StringListParameter x =>
      (switch_names x,
       merged_argparseOptions (description x) k (Some [("action", OString "append")]))
  | IntegerParameter x =>
      (switch_names x,
       merged_argparseOptions (description x) k (Some [("type", OString "int")]))
  | OptionParameter x =>
      (switch_names x,
       merged_argparseOptions (description x) k
         (Some [("choices", OStrings (default [] (options x)));
                ("defaultValue", OptionValue_of (defaultValue x))]))
  end.

(** The validation of [defineOptionParameter]: the message of the error it
    raises, if it raises one.  The other kinds validate nothing. *)
Definition validation_error (d : Declaration) : option string :=
  match d with
  | OptionParameter x =>
      match options x with
      | None => Some "When defining an option parameter, the options array must be defined."
      | Some opts =>
          if truthy (defaultValue x)
             && indexOf_is_minus_one opts (default EmptyString (defaultValue x))
          then Some ("Could not find default value " +:+ dquote +:+
                     default EmptyString (defaultValue x) +:+ dquote +:+ " " +:+
                     "in the array of available options: " +:+ Array_toString opts)
          else None
      end
  | _ => None
  end.

(** The key [_getKey] works with, and the static counter it leaves. *)
Definition requested_key (key : option string) (w : World) : string :=
  match key with
  | Some key => key
  | None => "key_" +:+ pretty (_keyCounter w)
  end.

Definition counter_after (key : option string) (w : World) : N :=
  match key with
  | Some _ => _keyCounter w
  | None => N.succ (_keyCounter w)
  end.

(** Whether the tokenizer refuses the switch of a declaration. *)
Definition tokenizer_refuses (d : Declaration) (w : World) : bool :=
  let registration := registration_of d (requested_key (explicitKey_of d) w) in
  conflicting (_argumentParser (this w)) registration.1
  || argparse_rejects w (_argumentParser (this w)) registration.1 registration.2.

(** The world a successful declaration leaves. *)
Definition declared (d : Declaration) (w : World) : World :=
  let k := requested_key (explicitKey_of d) w in
  {| _keyCounter := counter_after (explicitKey_of d) w;
     heap := (heap w ++ [ {| _key := k; _converter := None; value := None |} ])%list;
     this :=
       {| _argumentParser := (_argumentParser (this w) ++ [registration_of d k])%list;
          _parameterMetadata :=
            JsMap.set (longName_of d)
              {| parameter := length (heap w);
                 meta_required := required_of d;
                 meta_defaultValue := defaultValue_of d |}
              (_parameterMetadata (this w));
          _parameters := (_parameters (this w) ++ [length (heap w)])%list;
          _keys := <[k := longName_of d]> (_keys (this w)) |};
     argparse_rejects := argparse_rejects w |}.

(** The world a declaration leaves when [_getKey] throws: only the static
    counter may have moved. *)
Definition collided (d : Declaration) (w : World) : World :=
  {| _keyCounter := counter_after (explicitKey_of d) w;
     heap := heap w;
     this := this w;
     argparse_rejects := argparse_rejects w |}.

(** The world a declaration leaves when the tokenizer throws: the key is
    registered, the parameter object exists and is in the parameters list,
    but no switch is registered and the metadata map has not been touched. *)
Definition refused (d : Declaration) (w : World) : World :=
  let k := requested_key (explicitKey_of d) w in
  {| _keyCounter := counter_after (explicitKey_of d) w;
     heap := (heap w ++ [ {| _key := k; _converter := None; value := None |} ])%list;
     this :=
       {| _argumentParser := _argumentParser (this w);
          _parameterMetadata := _parameterMetadata (this w);
          _parameters := (_parameters (this w) ++ [length (heap w)])%list;
          _keys := <[k := longName_of d]> (_keys (this w)) |};
     argparse_rejects := argparse_rejects w |}.

(** Several declarations in a row, as [onDefineParameters] makes them.  Each
    call is run in the state its predecessor left, whether that one returned
    or threw (a caller may catch the exception and carry on), and the
    completions are collected. *)
Fixpoint declare_all (ds : list Declaration) (w : World) : list (Completion Handle) * World :=
  match ds with
  | [] => ([], w)
  | d :: rest =>
      let (r, w1) := define d w in
      let (rs, w2) := declare_all rest w1 in
      (r :: rs, w2)
  end.

Definition run (ds : list Declaration) (w : World) : World := (declare_all ds w).2.

(** The resolution pass: both fills, then the validation. *)
Definition resolve (data : ICommandLineParserData) : M unit :=
  _processParsedData data ;; validateParameters.

(** The entries [validateParameters] reports: required, and the value of
    the parameter still unset. *)
Definition offending (w : World) (entry : string * IParameterMetadata) : bool :=
  bool_decide (value_of w (parameter entry.2) = None) && meta_required entry.2.

Definition offenders (w : World) : list string :=
  (filter (λ entry, offending w entry = true) (_parameterMetadata (this w))).*1.

(** The keys held by the parameters of the provider, in declaration order. *)
Definition parameter_keys (w : World) : list (option string) :=
  key_of w <$> _parameters (this w).

(** The state invariant of a provider: the metadata map has one entry per
    long name, and its entries refer to pairwise different parameter
    objects that exist. *)
Definition consistent (w : World) : Prop :=
  NoDup (_parameterMetadata (this w)).*1 ∧
  NoDup (parameter <$> (_parameterMetadata (this w)).*2) ∧
  Forall (λ entry, parameter entry.2 < length (heap w)) (_parameterMetadata (this w)).

(** ** A process with several provider instances *)

(** The static counter, the heap and the tokenizer library belong to the
    process; every provider instance has its own registry. *)
Record Process := {
  static_keyCounter : N;
  objects : list CommandLineParameter;
  instances : list CommandLineParameterProvider;
  tokenizer : Tokenizer
}.

(** The process at start-up: the static initialiser has run. *)
Definition startup (rejects : Tokenizer) : Process :=
  {| static_keyCounter := 0; objects := []; instances := []; tokenizer := rejects |}.

(** What happens in a process: a provider is constructed, or a declaration
    is made on the [i]-th provider constructed so far. *)
Inductive Event : Type :=
  | Construct
  | Call (i : nat) (d : Declaration).

Definition enter (P : Process) (p : CommandLineParameterProvider) : World :=
  {| _keyCounter := static_keyCounter P; heap := objects P; this := p;
     argparse_rejects := tokenizer P |}.

Definition leave (P : Process) (i : nat) (w : World) : Process :=
  {| static_keyCounter := _keyCounter w;
     objects := heap w;
     instances := <[i := this w]> (instances P);
     tokenizer := tokenizer P |}.

(** Runs one event; returns the handle of the parameter object it created
    with an auto-generated key, if it did: the declaration returned the
    handle, or the tokenizer refused the switch after the object had been
    created and put in the parameters list. *)
Definition exec (e : Event) (P : Process) : option Handle * Process :=
  match e with
  | Construct =>
      (None,
       {| static_keyCounter := static_keyCounter P;
          objects := objects P;
          instances := (instances P ++ [constructor])%list;
          tokenizer := tokenizer P |})
  | Call i d =>
      match instances P !! i with
      | None => (None, P)
      | Some p =>
          let (r, w) := define d (enter P p) in
          (match r, explicitKey_of d with
           | Normal h, None => Some h
           | Throw ArgumentError, None => Some (length (objects P))
           | _, _ => None
           end,
           leave P i w)
      end
  end.

(** Runs a history of events; the handles of all parameters created with an
    auto-generated key, in order of creation, and the final process. *)
Fixpoint execute (es : list Event) (P : Process) : list Handle * Process :=
  match es with
  | [] => ([], P)
  | e :: rest =>
      let (h, P1) := exec e P in
      let (hs, P2) := execute rest P1 in
      (match h with Some h => h :: hs | None => hs end, P2)
  end.

Definition key_held (P : Process) (h : Handle) : option string :=
  _key <$> objects P !! h.

(** What the default fill does to the object an entry of the metadata map
    refers to, given the entry's default value. *)
Definition fill_object (dflt : option Value) (p : CommandLineParameter) : CommandLineParameter :=
  match value p, dflt with
  | None, Some d =>
      {| _key := _key p; _converter := _converter p; value := apply_converter p (Some d) |}
  | _, _ => p
  end.

(** The world after the default fill has visited the given entries. *)
Definition default_filled (entries : list (string * IParameterMetadata)) (w : World) : World :=
  foldl (λ w entry,
           set_heap (alter (fill_object (meta_defaultValue entry.2)) (parameter entry.2)) w)
        w entries.

(** The world after the value fill has visited the given parameters. *)
Definition value_filled (data : ICommandLineParserData) (parameters : list Handle)
    (w : World) : World :=
  foldl (λ w parameter, set_heap (alter (CommandLineParameter_setValue data) parameter) w)
        w parameters.

(** The auto-generated key number [n]. *)
Definition auto_key (n : N) : string := "key_" +:+ pretty n.

(** The provider tracks the entry [(name, md)] for the parameter object [p]:
    the metadata map holds the entry, the entry refers to [p], and [p] is in
    the parameters list. *)
Definition tracks (w : World) (name : string) (md : IParameterMetadata)
    (p : CommandLineParameter) : Prop :=
  (name, md) ∈ _parameterMetadata (this w) ∧
  heap w !! parameter md = Some p ∧
  parameter md ∈ _parameters (this w).

(** A provider all of whose keys were auto-generated, from counter values
    not below [c0]: the registry and the parameters hold only keys
    [auto_key n] with [c0 ≤ n] below the current counter, and the
    parameters hold them for pairwise different [n]. *)
Definition auto_keyed (c0 : N) (w : World) : Prop :=
  (c0 ≤ _keyCounter w)%N ∧
  (∀ k, is_Some (_keys (this w) !! k) →
        ∃ n, (c0 ≤ n < _keyCounter w)%N ∧ k = auto_key n) ∧
  ∃ ns, parameter_keys w = (λ n, Some (auto_key n)) <$> ns ∧
        NoDup ns ∧ Forall (λ n, (c0 ≤ n < _keyCounter w)%N) ns.

(** The parameters [hs] of a process hold auto-generated keys for pairwise
    different counter values below the current counter. *)
Definition auto_distinct (P : Process) (hs : list Handle) : Prop :=
  ∃ ns, key_held P <$> hs = (λ n, Some (auto_key n)) <$> ns ∧
        NoDup ns ∧ Forall (λ n, (n < static_keyCounter P)%N) ns.

(** ** Sample inputs *)

(** A tokenizer that takes every switch that does not conflict with a
    registered one; the option strings of the samples are well formed. *)
Definition conflicts_only : Tokenizer := λ _ _ _, false.

(** A process that has just started, with one provider constructed. *)
Definition fresh_world : World :=
  {| _keyCounter := 0; heap := []; this := constructor;
     argparse_rejects := conflicts_only |}.

Definition string_definition (name : string) (k : option string)
    (req : option bool) (dflt : option string) : ICommandLineStringDefinition :=
  {| keyed_base :=
       {| parameterLongName := name;
          parameterShortName := None;
          description := "a string";
          required := req;
          defaultValue := dflt |};
     key := k |}.

Definition option_definition (name : string) (opts : option (list string))
    (dflt : option string) : ICommandLineOptionDefinition :=
  {| option_base :=
       {| parameterLongName := name;
          parameterShortName := None;
          description := "a choice";
          required := None;
          defaultValue := dflt |};
     options := opts |}.

Definition flag_definition (name : string) : ICommandLineFlagDefinition :=
  {| parameterLongName := name;
     parameterShortName := Some "-v";
     description := "a flag";
     required := None;
     defaultValue := None |}.

Definition sample_name : ICommandLineStringDefinition :=
  string_definition "--name" (Some "k") None None.

Definition sample_count : ICommandLineIntegerDefinition :=
  {| keyed_base :=
       {| parameterLongName := "--count";
          parameterShortName := None;
          description := "a number";
          required := None;
          defaultValue := None |};
     key := Some "k" |}.

Definition sample_required_default : ICommandLineStringDefinition :=
  string_definition "--name" None (Some true) (Some "Alice").

(** ** Observations on a provider *)

(** The property [name] of an object literal. *)
Fixpoint Object_get (name : string) (o : ArgumentOptions) : option OptionValue :=
  match o with
  | [] => None
  | (k, v) :: rest => if String.eqb name k then Some v else Object_get name rest
  end.

(** The [dest] under which a registered switch reports its raw value. *)
Definition dest_of (registration : list string * ArgumentOptions) : option OptionValue :=
  Object_get "dest" registration.2.

(** A declaration that returned a parameter. *)
Definition accepted (r : Completion Handle) : bool :=
  match r with
  | Normal _ => true
  | Throw _ => false
  end.

(** A declaration that got as far as the tokenizer: it returned a
    parameter, or the tokenizer refused its switch. *)
Definition got_key (r : Completion Handle) : bool :=
  match r with
  | Normal _ | Throw ArgumentError => true
  | Throw _ => false
  end.

(** Every registered key has an owner with a non-empty long name, and the
    parameters hold registered, pairwise different keys. *)
Definition keys_owned (w : World) : Prop :=
  (∀ k owner, _keys (this w) !! k = Some owner → owner ≠ EmptyString) ∧
  ∃ ks, parameter_keys w = Some <$> ks ∧ NoDup ks ∧
        ∀ k, k ∈ ks → is_Some (_keys (this w) !! k).

(** The switches registered with the tokenizer and the entries of the
    metadata map correspond, in order: each switch has the long name of its
    entry for last name and reports under the key the parameter of its
    entry holds; the parameter of every entry is in the parameters list. *)
Definition aligned (w : World) : Prop :=
  last <$> (_argumentParser (this w)).*1 = Some <$> (_parameterMetadata (this w)).*1 ∧
  dest_of <$> _argumentParser (this w)
  = (λ entry, OString <$> key_of w (parameter entry.2)) <$> _parameterMetadata (this w) ∧
  ∀ entry, entry ∈ _parameterMetadata (this w) →
           parameter entry.2 ∈ _parameters (this w) ∧
           is_Some (key_of w (parameter entry.2)).

(** Every object a metadata entry refers to is in the parameters list. *)
Definition entries_listed (w : World) : Prop :=
  ∀ entry, entry ∈ _parameterMetadata (this w) →
           parameter entry.2 ∈ _parameters (this w).

(** What [_setValue] looks at: the key and the converter of the object. *)
Definition identity_of (p : CommandLineParameter) : string * option IConverterFunction :=
  (_key p, _converter p).

Definition sample_key_0 : ICommandLineStringDefinition :=
  string_definition "--name" (Some "key_0") None None.

(** * rush-lib: RushPnpmCommandLine

    A shallow embedding of [libraries/rush-lib/src/cli/RushPnpmCommandLine.ts]:
    the usage check [_validatePnpmUsage] and the launcher [launch].  What
    the code writes to the terminal is collected line by line; what it asks
    of the host (the Rush configuration, the file system, the process, the
    spawned tool) is read from a record of the answers. *)

Definition RUSH_SKIP_CHECKS_PARAMETER : string := "--rush-skip-checks".

Inductive CommandKind : Type :=
  | KnownSafe
  | ShowWarning
  | Blocked.

(** [new Map([...])]: the entries are set in order. *)
Definition _knownCommandMap : gmap string CommandKind :=
  foldl (λ m '(name, kind), <[name := kind]> m) ∅
    [ ("add", Blocked);
      ("audit", KnownSafe);
      ("exec", KnownSafe);
      ("import", Blocked);
      ("install", Blocked);
      ("i", Blocked);
      ("install-test", Blocked);
      ("it", Blocked);
      ("link", ShowWarning);
      ("ln", ShowWarning);
      ("list", KnownSafe);
      ("ls", KnownSafe);
      ("outdated", KnownSafe);
      ("pack", KnownSafe);
      ("prune", KnownSafe);
      ("publish", KnownSafe);
      ("rebuild", KnownSafe);
      ("rb", KnownSafe);
      ("remove", ShowWarning);
      ("rm", ShowWarning);
      ("root", KnownSafe);
      ("run", KnownSafe);
      ("start", KnownSafe);
      ("store", KnownSafe);
      ("test", KnownSafe);
      ("t", KnownSafe);
      ("unlink", ShowWarning);
      ("update", ShowWarning);
      ("up", ShowWarning);
      ("why", KnownSafe) ].

(** The text of a terminal line: literal text, text passed through
    [PrintUtilities.wrapWords], text passed through [Colors.cyan]; the
    fragments are concatenated. *)
Inductive Fragment : Type :=
  | Plain (text : string)
  | WrapWords (text : string)
  | Cyan (text : string).

Inductive TerminalLine : Type :=
  | WriteLine (text : list Fragment)
  | WriteErrorLine (text : list Fragment)
  | WriteWarningLine (text : list Fragment).

(** What is thrown: [new AlreadyReportedError()], or an error with a
    message. *)
Inductive Thrown : Type :=
  | AlreadyReportedError
  | JsError (message : string).

Inductive Outcome (A : Type) : Type :=
  | Returned (a : A)
  | Threw (e : Thrown).
Arguments Returned {A} a.
Arguments Threw {A} e.

(** The line feed. *)
Definition LF : string := String (Ascii.ascii_of_nat 10) EmptyString.

Definition BYPASS_NOTICE : string :=
  "To bypass this check, add " +:+ dquote +:+ RUSH_SKIP_CHECKS_PARAMETER +:+ dquote +:+
  " as the very first command line option.".

(** The part of JavaScript's regular expressions the source uses: character
    classes, given by ranges of character codes, concatenation, [+] and
    [*]; [Never], [Empty] and [Alt] are there for the derivatives. *)
Inductive RegExp : Type :=
  | Never
  | Empty
  | Class (ranges : list (nat * nat))
  | Alt (r1 r2 : RegExp)
  | Seq (r1 r2 : RegExp)
  | Star (r : RegExp)
  | Plus (r : RegExp).

Definition in_class (ranges : list (nat * nat)) (c : Ascii.ascii) : bool :=
  existsb (λ '(lo, hi), (lo <=? Ascii.nat_of_ascii c)%nat && (Ascii.nat_of_ascii c <=? hi)%nat)
          ranges.

(** Whether a regular expression matches the empty string. *)
Fixpoint nullable (r : RegExp) : bool :=
  match r with
  | Never => false
  | Empty => true
  | Class _ => false
  | Alt r1 r2 => nullable r1 || nullable r2
  | Seq r1 r2 => nullable r1 && nullable r2
  | Star _ => true
  | Plus r => nullable r
  end.

(** What is left to match after the character [c]. *)
Fixpoint derivative (c : Ascii.ascii) (r : RegExp) : RegExp :=
  match r with
  | Never => Never
  | Empty => Never
  | Class ranges => if in_class ranges c then Empty else Never
  | Alt r1 r2 => Alt (derivative c r1) (derivative c r2)
  | Seq r1 r2 =>
      Alt (Seq (derivative c r1) r2) (if nullable r1 then derivative c r2 else Never)
  | Star r => Seq (derivative c r) (Star r)
  | Plus r => Seq (derivative c r) (Star r)
  end.

(** [/^r$/.test(s)]: the whole of [s] matches [r]. *)
Fixpoint RegExp_test (r : RegExp) (s : string) : bool :=
  match s with
  | EmptyString => nullable r
  | String c rest => RegExp_test (derivative c r) rest
  end.

(** The strings a regular expression matches. *)
Inductive matches : RegExp → string → Prop :=
  | matches_Empty : matches Empty EmptyString
  | matches_Class ranges c :
      in_class ranges c = true → matches (Class ranges) (String c EmptyString)
  | matches_Alt_l r1 r2 s : matches r1 s → matches (Alt r1 r2) s
  | matches_Alt_r r1 r2 s : matches r2 s → matches (Alt r1 r2) s
  | matches_Seq r1 r2 s1 s2 :
      matches r1 s1 → matches r2 s2 → matches (Seq r1 r2) (s1 +:+ s2)
  | matches_Star_nil r : matches (Star r) EmptyString
  | matches_Star_more r s1 s2 :
      matches r s1 → matches (Star r) s2 → matches (Star r) (s1 +:+ s2)
  | matches_Plus r s1 s2 :
      matches r s1 → matches (Star r) s2 → matches (Plus r) (s1 +:+ s2).

(** The pattern [/^[a-z]+([a-z0-9\-])*$/]: the codes of [a] and [z] are 97
    and 122, those of [0] and [9] are 48 and 57, that of [-] is 45. *)
Definition command_verb_pattern : RegExp :=
  Seq (Plus (Class [(97, 122)]))
      (Star (Class [(97, 122); (48, 57); (45, 45)])).

Definition is_command_verb (s : string) : bool :=
  RegExp_test command_verb_pattern s.

(** [pnpmArgs.indexOf(x) >= 0]. *)
Definition includes (pnpmArgs : list string) (x : string) : bool :=
  bool_decide (x ∈ pnpmArgs).

Definition incompatible_message (commandName : string) : string :=
  "Error: The " +:+ dquote +:+ "pnpm " +:+ commandName +:+ dquote +:+
  " command is incompatible with Rush's environment." +:+
  " Use the " +:+ dquote +:+ "rush install" +:+ dquote +:+ " or " +:+
  dquote +:+ "rush update" +:+ dquote +:+ " commands instead.".

(** [_validatePnpmUsage(pnpmArgs, terminal)]: the lines written to the
    terminal, and either the array as the call leaves it ([shift] and
    [splice] change it in place) or what was thrown. *)
Definition _validatePnpmUsage (pnpmArgs : list string)
    : list TerminalLine * Outcome (list string) :=
  if bool_decide (pnpmArgs !! 0 = Some RUSH_SKIP_CHECKS_PARAMETER) then
    ([], Returned (tail pnpmArgs))
  else if (length pnpmArgs =? 0)%nat then
    ([], Returned pnpmArgs)
  else
    let firstArg := default EmptyString (pnpmArgs !! 0) in
    if includes pnpmArgs "-h" || includes pnpmArgs "--help" || includes pnpmArgs "-?" then
      ([], Returned pnpmArgs)
    else if (length pnpmArgs =? 1)%nat
            && (String.eqb firstArg "-v" || String.eqb firstArg "--version") then
      ([], Returned pnpmArgs)
    else if negb (is_command_verb firstArg) then
      ([WriteErrorLine
          [Plain ("Warning: The " +:+ dquote +:+ "rush-pnpm" +:+ dquote +:+
                  " wrapper expects a command verb before " +:+
                  dquote +:+ firstArg +:+ dquote +:+ LF)];
        WriteLine [Cyan BYPASS_NOTICE]],
       Threw AlreadyReportedError)
    else
      let commandName := firstArg in
      if bool_decide (pnpmArgs !! 1 = Some RUSH_SKIP_CHECKS_PARAMETER) then
        ([], Returned (delete 1 pnpmArgs))
      else if includes pnpmArgs RUSH_SKIP_CHECKS_PARAMETER then
        ([WriteErrorLine
            [WrapWords ("Error: The " +:+ dquote +:+ RUSH_SKIP_CHECKS_PARAMETER +:+ dquote +:+
                        " option must be the first parameter for the " +:+
                        dquote +:+ "rush-pnpm" +:+ dquote +:+ " command.")]],
         Threw AlreadyReportedError)
      else if bool_decide (commandName ∈ ["add"; "install"; "i"; "install-test"; "it"]) then
        ([WriteErrorLine [WrapWords (incompatible_message commandName); Plain LF];
          WriteLine [Cyan BYPASS_NOTICE]],
         Threw AlreadyReportedError)
      else
        match _knownCommandMap !! commandName with
        | Some KnownSafe => ([], Returned pnpmArgs)
        | Some ShowWarning =>
            ([WriteWarningLine
                [WrapWords ("Warning: The " +:+ dquote +:+ "pnpm " +:+ commandName +:+ dquote +:+
                            " command makes changes that may invalidate Rush's workspace state.");
                 Plain LF];
              WriteWarningLine
                [Plain ("==> Consider running " +:+ dquote +:+ "rush install" +:+ dquote +:+
                        " or " +:+ dquote +:+ "rush update" +:+ dquote +:+ " afterwards." +:+ LF)]],
             Returned pnpmArgs)
        | Some Blocked =>
            ([WriteErrorLine
                [WrapWords ("Error: The " +:+ dquote +:+ "pnpm " +:+ commandName +:+ dquote +:+
                            " command is known to be incompatible with Rush's environment.");
                 Plain LF];
              WriteLine [Cyan BYPASS_NOTICE]],
             Threw AlreadyReportedError)
        | None =>
            ([WriteErrorLine
                [WrapWords ("Error: The " +:+ dquote +:+ "pnpm " +:+ commandName +:+ dquote +:+
                            " command has not been tested with Rush's environment." +:+
                            " It may be incompatible.");
                 Plain LF];
              WriteLine [Cyan BYPASS_NOTICE]],
             Threw AlreadyReportedError)
        end.

(** A line written with [writeErrorLine]. *)
Definition is_error_line (line : TerminalLine) : bool :=
  match line with
  | WriteErrorLine _ => true
  | _ => false
  end.

(** How often [x] occurs among the arguments. *)
Definition occurrences (x : string) (pnpmArgs : list string) : nat :=
  length (filter (λ a, a = x) pnpmArgs).

(** One of [-h], [--help], [-?] occurs among the arguments. *)
Definition asks_for_help (pnpmArgs : list string) : bool :=
  includes pnpmArgs "-h" || includes pnpmArgs "--help" || includes pnpmArgs "-?".

(** The parts of [RushConfiguration] the launcher reads.  [useWorkspaces]
    and [override] are tested for truthiness, [pnpmStorePath] and
    [environmentVariables] may be absent. *)
Record PnpmOptions := {
  useWorkspaces : bool;
  pnpmStorePath : option string;
  environmentVariables : option (list (string * (string * bool)))
}.

Record RushConfiguration := {
  packageManager : string;
  pnpmOptions : PnpmOptions;
  commonTempFolder : string;
  packageManagerToolFilename : string
}.

(** [SpawnSyncReturns]: the error, if there is one, as the string it
    concatenates to, and the exit status, [null] when there is none. *)
Record SpawnSyncReturns := {
  spawn_error : option string;
  spawn_status : option Z
}.

(** What the host answers.  [rushJson] is [None] when
    [tryFindRushJsonLocation] finds nothing, and otherwise what
    [loadFromDefaultLocation] returns or throws; [spawnSync] returns its
    result or throws.  [NodeJsCompatibility.warnAboutCompatibilityIssues]
    writes to the console and is taken to return.  [EnvironmentMap] is a map
    from names to values, the names compared as they are written. *)
Record Host := {
  rushJson : option (Outcome RushConfiguration);
  FileSystem_exists : string → bool;
  path_join : string → string → string;
  argv : list string;
  process_env : gmap string string;
  Executable_spawnSync : string → list string → gmap string string → Outcome SpawnSyncReturns
}.

(** The loop over [Object.entries(environmentVariables)]. *)
Definition set_environmentVariables (vars : list (string * (string * bool)))
    (pnpmEnvironmentMap : gmap string string) : gmap string string :=
  foldl (λ m '(envKey, (envValue, override)),
           if (override : bool) then <[envKey := envValue]> m
           else match m !! envKey with
                | None => <[envKey := envValue]> m
                | Some _ => m
                end)
        pnpmEnvironmentMap vars.

(** The environment handed to the spawned tool. *)
Definition pnpmEnvironmentMap (rushConfiguration : RushConfiguration)
    (env : gmap string string) : gmap string string :=
  let m := <["NPM_CONFIG_WORKSPACE_DIR" := commonTempFolder rushConfiguration]> env in
  let m := if truthy (pnpmStorePath (pnpmOptions rushConfiguration))
           then <["NPM_CONFIG_STORE_DIR" :=
                    default EmptyString (pnpmStorePath (pnpmOptions rushConfiguration))]> m
           else m in
  match environmentVariables (pnpmOptions rushConfiguration) with
  | Some vars => set_environmentVariables vars m
  | None => m
  end.

(** One call of [Executable.spawnSync]: the file, the arguments, the
    environment. *)
Record SpawnCall := {
  spawn_filename : string;
  spawn_args : list string;
  spawn_environmentMap : gmap string string
}.

Definition DO_YOU_NEED : string :=
  "Do you need to run " +:+ dquote +:+ "rush install" +:+ dquote +:+ " or " +:+
  dquote +:+ "rush update" +:+ dquote +:+ "?".

(** The [try] block of [launch]: the lines written, the call of the tool if
    it came to that, and the exit status of the tool or what was thrown.
    Where the binary is missing, the hint is built as ['\n' + Colors.cyan(...)]:
    [Colors.cyan] returns an object, and concatenating it to a string gives
    the text [[object Object]]. *)
Definition launch_try (host : Host) : list TerminalLine * option SpawnCall * Outcome Z :=
  match rushJson host with
  | None =>
      ([], None,
       Threw (JsError ("The " +:+ dquote +:+ "rush-pnpm" +:+ dquote +:+
                       " command must be executed in a folder that is under a Rush workspace folder")))
  | Some (Threw e) => ([], None, Threw e)
  | Some (Returned rushConfiguration) =>
      if negb (String.eqb (packageManager rushConfiguration) "pnpm") then
        ([], None,
         Threw (JsError ("The " +:+ dquote +:+ "rush-pnpm" +:+ dquote +:+
                         " command requires your rush.json to be configured to use the PNPM package manager")))
      else if negb (useWorkspaces (pnpmOptions rushConfiguration)) then
        ([], None,
         Threw (JsError ("The " +:+ dquote +:+ "rush-pnpm" +:+ dquote +:+
                         " command requires the " +:+ dquote +:+ "useWorkspaces" +:+ dquote +:+
                         " setting to be enabled in rush.json")))
      else
        let workspaceFolder := commonTempFolder rushConfiguration in
        let workspaceFilePath := path_join host workspaceFolder "pnpm-workspace.yaml" in
        if negb (FileSystem_exists host workspaceFilePath) then
          ([WriteErrorLine [Plain "Error: The PNPM workspace file has not been generated:"];
            WriteErrorLine [Plain ("  " +:+ workspaceFilePath +:+ LF)];
            WriteLine [Cyan DO_YOU_NEED]],
           None, Threw AlreadyReportedError)
        else if negb (FileSystem_exists host (packageManagerToolFilename rushConfiguration)) then
          ([WriteErrorLine [Plain "Error: The PNPM local binary has not been installed yet."];
            WriteLine [Plain (LF +:+ "[object Object]")]],
           None, Threw AlreadyReportedError)
        else
          match _validatePnpmUsage (drop 2 (argv host)) with
          | (lines, Threw e) => (lines, None, Threw e)
          | (lines, Returned pnpmArgs) =>
              let call :=
                {| spawn_filename := packageManagerToolFilename rushConfiguration;
                   spawn_args := pnpmArgs;
                   spawn_environmentMap :=
                     pnpmEnvironmentMap rushConfiguration (process_env host) |} in
              (lines, Some call,
               match Executable_spawnSync host (spawn_filename call) (spawn_args call)
                       (spawn_environmentMap call) with
               | Threw e => Threw e
               | Returned result =>
                   match spawn_error result with
                   | Some error => Threw (JsError ("Failed to invoke PNPM: " +:+ error))
                   | None =>
                       match spawn_status result with
                       | None =>
                           Threw (JsError
                             "Failed to invoke PNPM: Spawn completed without an exit code")
                       | Some status => Returned status
                       end
                   end
               end)
          end
  end.

(** What [launch] leaves behind: [process.exitCode], the terminal, and the
    call of the tool if there was one. *)
Record Launched := {
  exitCode : Z;
  terminal : list TerminalLine;
  spawned : option SpawnCall
}.

(** [launch]: the exit code starts at 1 and becomes the status of the tool
    on success; an error other than [AlreadyReportedError] is reported. *)
Definition launch (host : Host) : Launched :=
  let '(lines, call, outcome) := launch_try host in
  {| exitCode := match outcome with
                 | Returned status => status
                 | Threw _ => 1
                 end;
     terminal := (lines ++
                  match outcome with
                  | Threw (JsError message) =>
                      [WriteErrorLine [Plain LF; WrapWords ("ERROR: " +:+ message)]]
                  | _ => []
                  end)%list;
     spawned := call |}.

(** A host for the examples: a workspace configured for PNPM, all files in
    place, a tool that returns the given status. *)
Definition sample_configuration : RushConfiguration :=
  {| packageManager := "pnpm";
     pnpmOptions :=
       {| useWorkspaces := true;
          pnpmStorePath := None;
          environmentVariables :=
            Some [("PATH", ("/opt/bin", false)); ("NODE_ENV", ("production", true))] |};
     commonTempFolder := "/repo/common/temp";
     packageManagerToolFilename := "/repo/common/temp/pnpm-local/pnpm" |}.

Definition sample_host (args : list string) (status : Z) : Host :=
  {| rushJson := Some (Returned sample_configuration);
     FileSystem_exists := λ _, true;
     path_join := λ folder file, folder +:+ "/" +:+ file;
     argv := "node" :: "rush-pnpm" :: args;
     process_env := {["PATH" := "/usr/bin"; "NODE_ENV" := "development"]};
     Executable_spawnSync := λ _ _ _,
       Returned {| spawn_error := None; spawn_status := Some status |} |}.

(** The exit status the tool completed with, when the call returned a
    result without error and with a status. *)
Definition pnpm_status (host : Host) (call : SpawnCall) : option Z :=
  match Executable_spawnSync host (spawn_filename call) (spawn_args call)
          (spawn_environmentMap call) with
  | Returned result =>
      match spawn_error result with
      | Some _ => None
      | None => spawn_status result
      end
  | Threw _ => None
  end.

(** The host itself threw [AlreadyReportedError] in this run, from the
    loading of the configuration or from the spawning of the tool. *)
Definition host_already_reported (host : Host) : Prop :=
  rushJson host = Some (Threw AlreadyReportedError) ∨
  ∃ call,
    spawned (launch host) = Some call ∧
    Executable_spawnSync host (spawn_filename call) (spawn_args call)
      (spawn_environmentMap call) = Threw AlreadyReportedError.

(** * Properties *)

(** ** The methods as equations *)

Lemma _getKey_eq (name : string) (key : option string) (w : World) :
  _getKey name key w =
  let k := requested_key key w in
  let w' := {| _keyCounter := counter_after key w; heap := heap w; this := this w;
               argparse_rejects := argparse_rejects w |} in
  if truthy (_keys (this w) !! k)
  then (Throw (DuplicateKeyError
                 (DuplicateKey_text name (default EmptyString (_keys (this w) !! k)))), w')
  else (Normal k,
        set_this (λ p,
          {| _argumentParser := _argumentParser p;
             _parameterMetadata := _parameterMetadata p;
             _parameters := _parameters p;
             _keys := <[k := name]> (_keys p) |}) w').
Proof.
  destruct w as [c h p t]; destruct key as [k|]; cbn;
    unfold _getKey, mbind, M_bind, mret, M_ret, gets, throw, modify; cbn;
    match goal with |- context [truthy ?x] => destruct (truthy x) end; reflexivity.
Qed.

Lemma define_eq (d : Declaration) (w : World) :
  define d w =
  match validation_error d with
  | Some message => (Throw (InvalidDefinitionError message), w)
  | None =>
      let k := requested_key (explicitKey_of d) w in
      if truthy (_keys (this w) !! k)
      then (Throw (DuplicateKeyError
                     (DuplicateKey_text (longName_of d)
                        (default EmptyString (_keys (this w) !! k)))),
            collided d w)
      else if tokenizer_refuses d w
           then (Throw ArgumentError, refused d w)
           else (Normal (length (heap w)), declared d w)
  end.
Proof.
  destruct d as [x|x|x|x|x]; cbn [define validation_error].
  5: { unfold defineOptionParameter. destruct (options x) as [opts|] eqn:Hopts; [|reflexivity].
       destruct (truthy _ && _); [reflexivity|].
       unfold _createParameter, addArgument, mbind, M_bind, gets. rewrite _getKey_eq.
       unfold tokenizer_refuses, declared, refused, registration_of. rewrite Hopts. cbn.
       destruct (truthy _); [reflexivity|]. cbn.
       destruct (_ || _); reflexivity. }
  all: unfold defineFlagParameter, defineStringParameter, defineStringListParameter,
         defineIntegerParameter, _createParameter, addArgument, mbind, M_bind, gets;
       rewrite _getKey_eq; unfold tokenizer_refuses; cbn;
       destruct (truthy _); [reflexivity|]; cbn;
       destruct (_ || _); reflexivity.
Qed.

Lemma forEach_total {A : Type} (body : A → M unit) (xs : list A) (w : World) :
  (∀ x w, (body x w).1 = Normal ()) →
  forEach body xs w = (Normal (), foldl (λ w x, (body x w).2) w xs).
Proof.
  intros Hbody. revert w. induction xs as [|x xs IH]; intros w; [reflexivity|].
  cbn [forEach foldl]. unfold mbind, M_bind.
  specialize (Hbody x w). destruct (body x w) as [[[]|e] w1]; cbn in *; [|discriminate].
  apply IH.
Qed.

Lemma missingParameterLongNames_offenders (w : World) :
  missingParameterLongNames w = offenders w.
Proof.
  unfold missingParameterLongNames, offenders.
  assert (G : ∀ entries acc,
    foldl (λ missing '(parameterLongName, parameterMetadata),
             if bool_decide (value_of w (parameter parameterMetadata) = None)
                && meta_required parameterMetadata
             then (missing ++ [parameterLongName])%list
             else missing) acc entries
    = (acc ++ (filter (λ entry, offending w entry = true) entries).*1)%list).
  { induction entries as [|[name md] entries IH]; intros acc; cbn [foldl].
    - rewrite filter_nil. cbn. by rewrite app_nil_r.
    - rewrite IH, filter_cons.
      change (bool_decide (value_of w (parameter md) = None) && meta_required md)
        with (offending w (name, md)).
      case_decide as Hoff.
      + rewrite Hoff. cbn. by rewrite <- app_assoc.
      + apply not_true_is_false in Hoff. by rewrite Hoff. }
  apply (G _ []).
Qed.

Lemma elem_of_offenders (w : World) (name : string) :
  name ∈ offenders w ↔
  ∃ md, (name, md) ∈ _parameterMetadata (this w) ∧
        meta_required md = true ∧ value_of w (parameter md) = None.
Proof.
  unfold offenders. rewrite list_elem_of_fmap. split.
  - intros [[n md] [-> [Hoff Hin]%list_elem_of_filter]]. exists md.
    unfold offending in Hoff. cbn in *.
    apply andb_true_iff in Hoff as [Hv%bool_decide_eq_true Hr]. done.
  - intros (md & Hin & Hr & Hv). exists (name, md). split; [done|].
    apply list_elem_of_filter. split; [|done].
    unfold offending. cbn. rewrite Hr, bool_decide_eq_true_2 by done. done.
Qed.

Lemma validateParameters_eq (w : World) :
  validateParameters w =
  (match offenders w with
   | [] => Normal ()
   | _ :: _ => Throw (MissingRequiredParametersError
                 ("Missing required parameters: " +:+ join ", " (offenders w)))
   end, w).
Proof.
  unfold validateParameters, mbind, M_bind, gets.
  rewrite missingParameterLongNames_offenders.
  destruct (offenders w); reflexivity.
Qed.

(** ** Keys *)

Lemma truthy_Some (s : string) : s ≠ EmptyString → truthy (Some s) = true.
Proof. by destruct s. Qed.

Lemma run_cons (d : Declaration) (ds : list Declaration) (w : World) :
  run (d :: ds) w = run ds (define d w).2.
Proof.
  unfold run. cbn [declare_all]. destruct (define d w) as [r w1]. cbn.
  by destruct (declare_all ds w1).
Qed.

(** A key owned by a parameter with a non-empty long name keeps its owner. *)
Lemma define_keeps_owner (d : Declaration) (w : World) (k owner : string) :
  _keys (this w) !! k = Some owner → owner ≠ EmptyString →
  _keys (this (define d w).2) !! k = Some owner.
Proof.
  intros Hk Hne. rewrite define_eq.
  destruct (validation_error d); [done|]. cbn zeta.
  destruct (truthy _) eqn:Ht; [done|].
  destruct (decide (requested_key (explicitKey_of d) w = k)) as [Heq|Hneq].
  - rewrite Heq, Hk, truthy_Some in Ht by done. discriminate.
  - destruct (tokenizer_refuses d w); cbn; by rewrite lookup_insert_ne.
Qed.

Lemma run_keeps_owner (ds : list Declaration) (w : World) (k owner : string) :
  _keys (this w) !! k = Some owner → owner ≠ EmptyString →
  _keys (this (run ds w)) !! k = Some owner.
Proof.
  revert w. induction ds as [|d ds IH]; intros w Hk Hne; [done|].
  rewrite run_cons. apply IH; [|done]. by apply define_keeps_owner.
Qed.

Lemma keyed_validation_error (d : Declaration) (k : string) :
  explicitKey_of d = Some k → validation_error d = None.
Proof. by destruct d. Qed.

(** A declaration that asks for a registered key throws. *)
Lemma define_registered (d : Declaration) (w : World) (k owner : string) :
  explicitKey_of d = Some k →
  _keys (this w) !! k = Some owner → owner ≠ EmptyString →
  define d w =
  (Throw (DuplicateKeyError (DuplicateKey_text (longName_of d) owner)), w).
Proof.
  intros Hd Hk Hne. rewrite define_eq, (keyed_validation_error d k Hd).
  cbn zeta. rewrite Hd. cbn [requested_key]. rewrite Hk, truthy_Some by done.
  cbn. unfold collided. rewrite Hd. by destruct w.
Qed.

(** A declaration that asks for a key nobody holds registers it, whether
    the tokenizer then takes its switch or not. *)
Lemma define_unregistered (d : Declaration) (w : World) (k : string) :
  explicitKey_of d = Some k →
  _keys (this w) !! k = None →
  (define d w).1 = (if tokenizer_refuses d w
                    then Throw ArgumentError
                    else Normal (length (heap w))) ∧
  _keys (this (define d w).2) !! k = Some (longName_of d).
Proof.
  intros Hd Hk. rewrite define_eq, (keyed_validation_error d k Hd).
  cbn zeta. rewrite Hd. cbn [requested_key]. rewrite Hk. cbn [truthy].
  destruct (tokenizer_refuses d w); cbn; rewrite Hd; cbn;
    by rewrite lookup_insert_eq.
Qed.

(** ** Declaration-time errors *)

(** C1, amended.  For an enumerated-option definition whose [defaultValue]
    is not the empty string, [defineOptionParameter] raises
    [InvalidDefinitionError] exactly when [options] is absent, or when a
    [defaultValue] is supplied that is not a member of [options].  In every
    other case, an [options] array that is present but empty included, the
    validation raises nothing. *)
Theorem defineOptionParameter_InvalidDefinitionError
    (definition : ICommandLineOptionDefinition) (w : World) :
  defaultValue definition ≠ Some EmptyString →
  (∃ message,
     (defineOptionParameter definition w).1 = Throw (InvalidDefinitionError message))
  ↔
  (options definition = None ∨
   ∃ opts d, options definition = Some opts ∧
             defaultValue definition = Some d ∧ d ∉ opts).
Proof.
  intros Hne.
  change (defineOptionParameter definition w) with (define (OptionParameter definition) w).
  rewrite define_eq. cbn [validation_error].
  destruct (options definition) as [opts|] eqn:Hopts.
  - destruct (defaultValue definition) as [d|] eqn:Hd.
    + rewrite truthy_Some by congruence. cbn [andb default from_option id].
      unfold indexOf_is_minus_one.
      destruct (bool_decide_reflect (d ∈ opts)) as [Hin|Hin]; cbn [negb].
      * cbn zeta. split.
        -- intros [message H].
           destruct (truthy _); [|destruct (tokenizer_refuses _ _)]; cbn in H; discriminate.
        -- intros [?|(opts' & d' & ? & ? & ?)]; [discriminate|]. by simplify_eq.
      * split; [|by eexists]. intros _. right. by exists opts, d.
    + change (truthy None) with false. cbn [andb]. cbn zeta. split.
      * intros [message H].
        destruct (truthy _); [|destruct (tokenizer_refuses _ _)]; cbn in H; discriminate.
      * intros [?|(opts' & d' & ? & ? & ?)]; discriminate.
  - split; [by left|]. intros _. by eexists.
Qed.

Lemma defineOptionParameter_InvalidDefinitionError_witness :
  defaultValue (option_definition "--level" (Some ["low"; "high"]) (Some "medium"))
    ≠ Some EmptyString ∧
  ∃ message,
    (defineOptionParameter
       (option_definition "--level" (Some ["low"; "high"]) (Some "medium"))
       fresh_world).1 = Throw (InvalidDefinitionError message).
Proof.
  split; [discriminate|].
  apply (defineOptionParameter_InvalidDefinitionError
           (option_definition "--level" (Some ["low"; "high"]) (Some "medium"))
           fresh_world); [discriminate|].
  right. exists ["low"; "high"], "medium". repeat split.
  intros H. repeat (apply elem_of_cons in H as [H|H]; [discriminate|]).
  by apply elem_of_nil in H.
Defined.

(** C1 as stated fails: an [options] array that is present but empty passes
    the validation, and the parameter is declared. *)
Lemma defineOptionParameter_empty_options_accepted :
  options (option_definition "--level" (Some []) None) = Some [] ∧
  (defineOptionParameter (option_definition "--level" (Some []) None) fresh_world).1
  = Normal 0.
Proof. split; reflexivity. Qed.

(** C7.  A declaration that throws [InvalidDefinitionError] or
    [DuplicateKeyError] (the only other exception a declaration can raise
    is the tokenizer's own, from [addArgument]) has not registered a switch
    with the tokenizer and leaves the parameters list, the metadata map and
    the key registry, as well as the parameter objects on the heap, exactly
    as they were. *)
Theorem failed_declaration_changes_nothing
    (d : Declaration) (w : World) (e : Exception) :
  (define d w).1 = Throw e →
  ((∃ message, e = InvalidDefinitionError message) ∨
   (∃ text, e = DuplicateKeyError text) ∨
   e = ArgumentError) ∧
  (e ≠ ArgumentError →
   _argumentParser (this (define d w).2) = _argumentParser (this w) ∧
   _parameters (this (define d w).2) = _parameters (this w) ∧
   _parameterMetadata (this (define d w).2) = _parameterMetadata (this w) ∧
   _keys (this (define d w).2) = _keys (this w) ∧
   heap (define d w).2 = heap w).
Proof.
  rewrite define_eq. destruct (validation_error d) as [message|].
  - cbn. intros [= <-]. split; [left; by eexists|done].
  - cbn zeta. destruct (truthy _); cbn.
    + intros [= <-]. split; [right; left; by eexists|done].
    + destruct (tokenizer_refuses d w); cbn; [|discriminate].
      intros [= <-]. split; [by do 2 right|done].
Qed.

Lemma failed_declaration_changes_nothing_witness :
  (define (IntegerParameter sample_count)
     (run [StringParameter sample_name] fresh_world)).1
  = Throw (DuplicateKeyError (DuplicateKey_text "--count" "--name"))
  ∧
  this (define (IntegerParameter sample_count)
          (run [StringParameter sample_name] fresh_world)).2
  = this (run [StringParameter sample_name] fresh_world).
Proof.
  split; [reflexivity|].
  destruct (failed_declaration_changes_nothing
              (IntegerParameter sample_count)
              (run [StringParameter sample_name] fresh_world)
              (DuplicateKeyError (DuplicateKey_text "--count" "--name")) eq_refl)
    as (_ & Hsame).
  destruct Hsame as (Ha & Hp & Hm & Hk & _); [discriminate|].
  destruct (this (define (IntegerParameter sample_count)
                    (run [StringParameter sample_name] fresh_world)).2),
           (this (run [StringParameter sample_name] fresh_world)).
  cbn in Ha, Hp, Hm, Hk. by rewrite Ha, Hp, Hm, Hk.
Defined.

(** C8.  The collision check looks only at whether the key is registered:
    a declaration that supplies an explicit key which the registry already
    maps to an owner (a non-empty long name) throws [DuplicateKeyError],
    whatever the owner is, the requesting declaration's own long name
    included, and changes nothing. *)
Theorem registered_key_is_refused
    (d : Declaration) (w : World) (k owner : string) :
  explicitKey_of d = Some k →
  _keys (this w) !! k = Some owner →
  owner ≠ EmptyString →
  define d w =
  (Throw (DuplicateKeyError (DuplicateKey_text (longName_of d) owner)), w).
Proof. apply define_registered. Qed.

Lemma registered_key_is_refused_witness :
  _keys (this (run [StringParameter sample_name] fresh_world)) !! "k" = Some "--name" ∧
  define (StringParameter sample_name) (run [StringParameter sample_name] fresh_world)
  = (Throw (DuplicateKeyError (DuplicateKey_text "--name" "--name")),
     run [StringParameter sample_name] fresh_world).
Proof.
  split; [reflexivity|].
  apply (registered_key_is_refused (StringParameter sample_name)
           (run [StringParameter sample_name] fresh_world) "k" "--name");
    [reflexivity | reflexivity | discriminate].
Defined.

(** The check is the truthiness test [if (existingKey)]: a key whose
    registered owner has the empty string for long name counts as free, and
    a later declaration takes it over.  (Whether the tokenizer has taken
    the switch of the first declaration makes no difference: the key was
    registered before the tokenizer was asked.) *)
Example empty_long_name_owner_is_not_detected (rejects : Tokenizer) :
  let w := run [StringParameter (string_definition EmptyString (Some "k") None None)]
             {| _keyCounter := 0; heap := []; this := constructor;
                argparse_rejects := rejects |} in
  _keys (this w) !! "k" = Some EmptyString ∧
  (∀ text, (define (StringParameter (string_definition "--name" (Some "k") None None)) w).1
           ≠ Throw (DuplicateKeyError text)) ∧
  _keys (this (define (StringParameter (string_definition "--name" (Some "k") None None)) w).2)
    !! "k" = Some "--name".
Proof.
  intros w.
  assert (Hk : _keys (this w) !! "k" = Some EmptyString).
  { unfold w. rewrite run_cons. cbn [run declare_all snd].
    rewrite define_eq. cbn.
    destruct (tokenizer_refuses _ _); reflexivity. }
  split; [done|].
  rewrite define_eq. cbn [validation_error explicitKey_of string_definition key requested_key].
  cbn zeta. rewrite Hk. cbn [truthy].
  destruct (tokenizer_refuses _ _); cbn; (split; [done|apply lookup_insert_eq]).
Qed.

Lemma second_with_same_key_is_refused
    (d1 d2 : Declaration) (k : string) (between : list Declaration) (w : World) :
  explicitKey_of d1 = Some k → explicitKey_of d2 = Some k →
  longName_of d1 ≠ EmptyString →
  _keys (this w) !! k = None →
  (define d1 w).1 = (if tokenizer_refuses d1 w
                     then Throw ArgumentError
                     else Normal (length (heap w))) ∧
  define d2 (run between (define d1 w).2) =
  (Throw (DuplicateKeyError (DuplicateKey_text (longName_of d2) (longName_of d1))),
   run between (define d1 w).2).
Proof.
  intros H1 H2 Hne Hfree.
  destruct (define_unregistered d1 w k H1 Hfree) as [Hfirst Hreg]. split; [done|].
  apply (define_registered d2 _ k); [done| |done].
  by apply run_keeps_owner.
Qed.

(** C2.  Two declarations on one provider that supply the same explicit
    key, not registered before, and carry (non-empty) long names: whichever
    is made first gets the key (it returns, unless the tokenizer refuses its
    switch, which happens after the key is registered), and the other one,
    made at any later point, throws a [DuplicateKeyError] whose text names
    its own long name and the long name of the first, the owner of the key.
    This holds in either order, and whether or not the two long names
    differ. *)
Theorem same_explicit_key_is_refused
    (d1 d2 : Declaration) (k : string) (between : list Declaration) (w : World) :
  explicitKey_of d1 = Some k → explicitKey_of d2 = Some k →
  longName_of d1 ≠ EmptyString → longName_of d2 ≠ EmptyString →
  _keys (this w) !! k = None →
  ((define d1 w).1 = (if tokenizer_refuses d1 w
                      then Throw ArgumentError
                      else Normal (length (heap w))) ∧
   define d2 (run between (define d1 w).2) =
   (Throw (DuplicateKeyError (DuplicateKey_text (longName_of d2) (longName_of d1))),
    run between (define d1 w).2))
  ∧
  ((define d2 w).1 = (if tokenizer_refuses d2 w
                      then Throw ArgumentError
                      else Normal (length (heap w))) ∧
   define d1 (run between (define d2 w).2) =
   (Throw (DuplicateKeyError (DuplicateKey_text (longName_of d1) (longName_of d2))),
    run between (define d2 w).2)).
Proof.
  intros H1 H2 Hne1 Hne2 Hfree.
  split; by apply (second_with_same_key_is_refused _ _ k).
Qed.

Lemma same_explicit_key_is_refused_witness :
  (define (IntegerParameter sample_count)
     (run [FlagParameter (flag_definition "--verbose")]
        (define (StringParameter sample_name) fresh_world).2)).1 =
  Throw (DuplicateKeyError (DuplicateKey_text "--count" "--name"))
  ∧
  (define (StringParameter sample_name)
     (run [FlagParameter (flag_definition "--verbose")]
        (define (IntegerParameter sample_count) fresh_world).2)).1 =
  Throw (DuplicateKeyError (DuplicateKey_text "--name" "--count")).
Proof.
  destruct (same_explicit_key_is_refused
              (StringParameter sample_name) (IntegerParameter sample_count) "k"
              [FlagParameter (flag_definition "--verbose")] fresh_world
              eq_refl eq_refl) as [[_ Hfirst] [_ Hsecond]];
    [discriminate | discriminate | reflexivity |].
  split; [exact (f_equal fst Hfirst) | exact (f_equal fst Hsecond)].
Defined.

(** ** Validation of required parameters *)

(** C3.  After both fill passes, [validateParameters] throws exactly when
    some entry of the metadata map is required while the value of its
    parameter is unset; what it throws is one error whose message lists, in
    the order of the map, the long name of every such entry and of no other;
    when there is none it returns.  It changes nothing. *)
Theorem validateParameters_reports_every_offender
    (data : ICommandLineParserData) (w0 : World) :
  let w := (_processParsedData data w0).2 in
  ((∃ e, (validateParameters w).1 = Throw e) ↔
   (∃ name md, (name, md) ∈ _parameterMetadata (this w) ∧
               meta_required md = true ∧ value_of w (parameter md) = None)) ∧
  (∀ e, (validateParameters w).1 = Throw e →
        e = MissingRequiredParametersError
              ("Missing required parameters: " +:+ join ", " (offenders w))) ∧
  (∀ name, name ∈ offenders w ↔
           ∃ md, (name, md) ∈ _parameterMetadata (this w) ∧
                 meta_required md = true ∧ value_of w (parameter md) = None) ∧
  (offenders w = [] → (validateParameters w).1 = Normal ()) ∧
  (validateParameters w).2 = w.
Proof.
  intros w. rewrite validateParameters_eq. cbn [fst snd].
  repeat split.
  - intros [e He]. destruct (offenders w) as [|name rest] eqn:Hoff; [discriminate|].
    assert (Hin : name ∈ offenders w) by (rewrite Hoff; left).
    apply elem_of_offenders in Hin as [md ?]. by exists name, md.
  - intros (name & md & Hin). assert (H : name ∈ offenders w).
    { apply elem_of_offenders. by exists md. }
    destruct (offenders w); [by apply elem_of_nil in H|by eexists].
  - intros e He. destruct (offenders w); [discriminate|]. by injection He as <-.
  - apply elem_of_offenders.
  - apply elem_of_offenders.
  - by intros ->.
Qed.

(** ** The fill passes *)

Lemma set_heap_id (f : list CommandLineParameter → list CommandLineParameter) (w : World) :
  f (heap w) = heap w → set_heap f w = w.
Proof. destruct w as [c h p t]. unfold set_heap. cbn. by intros ->. Qed.

Lemma set_heap_ext (f g : list CommandLineParameter → list CommandLineParameter)
    (w : World) :
  f (heap w) = g (heap w) → set_heap f w = set_heap g w.
Proof. unfold set_heap. by intros ->. Qed.

Lemma fill_default_eq (entry : string * IParameterMetadata) (w : World) :
  fill_default entry w =
  (Normal (),
   set_heap (alter (fill_object (meta_defaultValue entry.2)) (parameter entry.2)) w).
Proof.
  unfold fill_default, mbind, M_bind, gets, value_of, key_of. cbn [fst snd].
  destruct (heap w !! parameter entry.2) as [p|] eqn:Hp; cbn.
  - destruct (value p) as [v|] eqn:Hv.
    + unfold mret, M_ret. f_equal. symmetry. apply set_heap_id.
      apply list_eq. intros j. rewrite list_lookup_alter. case_decide; [|done].
      subst j. rewrite Hp. cbn. unfold fill_object. by rewrite Hv.
    + destruct (meta_defaultValue entry.2) as [d|] eqn:Hd.
      * unfold _setValue, modify. f_equal. apply set_heap_ext.
        apply list_alter_ext; [|done].
        intros q Hq. assert (q = p) as -> by congruence.
        unfold fill_object, CommandLineParameter_setValue.
        by rewrite Hv, lookup_insert_eq.
      * unfold mret, M_ret. f_equal. symmetry. apply set_heap_id.
        apply list_alter_id. intros q. unfold fill_object. by destruct (value q).
  - destruct (meta_defaultValue entry.2) as [d|] eqn:Hd.
    + unfold _setValue, modify. f_equal. apply set_heap_ext.
      apply list_alter_ext; [|done]. intros q Hq. congruence.
    + unfold mret, M_ret. f_equal. symmetry. apply set_heap_id.
      apply list_alter_id. intros q. unfold fill_object. by destruct (value q).
Qed.

Lemma default_fill_eq (w : World) :
  default_fill w = (Normal (), default_filled (_parameterMetadata (this w)) w).
Proof.
  unfold default_fill, mbind, M_bind, gets.
  rewrite forEach_total by (intros; by rewrite fill_default_eq).
  f_equal. unfold default_filled.
  generalize (_parameterMetadata (this w)) as entries. intros entries. revert w.
  induction entries as [|e entries IH]; intros w; [done|].
  cbn [foldl]. by rewrite fill_default_eq, IH.
Qed.

Lemma value_fill_eq (data : ICommandLineParserData) (w : World) :
  value_fill data w = (Normal (), value_filled data (_parameters (this w)) w).
Proof.
  unfold value_fill, mbind, M_bind, gets.
  by rewrite forEach_total by done.
Qed.

Lemma default_filled_this (entries : list (string * IParameterMetadata)) (w : World) :
  this (default_filled entries w) = this w ∧
  _keyCounter (default_filled entries w) = _keyCounter w.
Proof.
  revert w. induction entries as [|e entries IH]; intros w; [done|].
  unfold default_filled in *. cbn [foldl].
  match goal with |- context [foldl _ ?w1 entries] => by destruct (IH w1) as [-> ->] end.
Qed.

Lemma value_filled_this (data : ICommandLineParserData) (hs : list Handle) (w : World) :
  this (value_filled data hs w) = this w ∧
  _keyCounter (value_filled data hs w) = _keyCounter w.
Proof.
  revert w. induction hs as [|h hs IH]; intros w; [done|].
  unfold value_filled in *. cbn [foldl].
  match goal with |- context [foldl _ ?w1 hs] => by destruct (IH w1) as [-> ->] end.
Qed.

Lemma _processParsedData_eq (data : ICommandLineParserData) (w : World) :
  _processParsedData data w =
  (Normal (),
   default_filled (_parameterMetadata (this w))
     (value_filled data (_parameters (this w)) w)).
Proof.
  unfold _processParsedData, mbind, M_bind.
  rewrite value_fill_eq, default_fill_eq.
  by destruct (value_filled_this data (_parameters (this w)) w) as [-> _].
Qed.

Lemma _processParsedData_this (data : ICommandLineParserData) (w : World) :
  this (_processParsedData data w).2 = this w.
Proof.
  rewrite _processParsedData_eq. cbn [snd].
  destruct (default_filled_this (_parameterMetadata (this w))
              (value_filled data (_parameters (this w)) w)) as [-> _].
  apply value_filled_this.
Qed.

Lemma fill_object_set (dflt : option Value) (p : CommandLineParameter) :
  value p ≠ None → fill_object dflt p = p.
Proof. unfold fill_object. by destruct (value p). Qed.

Lemma fill_object_idemp (dflt : option Value) (p : CommandLineParameter) :
  fill_object dflt (fill_object dflt p) = fill_object dflt p.
Proof.
  destruct p as [k c [v|]], dflt as [d|]; try reflexivity.
  unfold fill_object, apply_converter. cbn.
  destruct c as [convert|]; [|reflexivity].
  by destruct (convert (Some d)).
Qed.

Lemma fill_object_stable (d d' : option Value) (p : CommandLineParameter) :
  fill_object d p = p → fill_object d (fill_object d' p) = fill_object d' p.
Proof.
  destruct p as [k c [v|]], d' as [d'|], d as [d|]; try (intros; reflexivity).
  - unfold fill_object, apply_converter. cbn. intros [= Hc].
    destruct c as [convert|]; [|discriminate].
    destruct (convert (Some d')) eqn:Hc'; cbn; [reflexivity|by rewrite Hc].
  - unfold fill_object, apply_converter. cbn. intros _.
    by destruct c as [convert|]; [destruct (convert (Some d'))|].
  - done.
Qed.

Lemma default_filled_cons (e : string * IParameterMetadata)
    (entries : list (string * IParameterMetadata)) (w : World) :
  default_filled (e :: entries) w =
  default_filled entries
    (set_heap (alter (fill_object (meta_defaultValue e.2)) (parameter e.2)) w).
Proof. reflexivity. Qed.

(** An entry the default fill has nothing to do for stays that way. *)
Lemma default_filled_settled_preserved
    (entries : list (string * IParameterMetadata)) (w : World) (h : Handle)
    (d : option Value) :
  (∀ p, heap w !! h = Some p → fill_object d p = p) →
  ∀ p, heap (default_filled entries w) !! h = Some p → fill_object d p = p.
Proof.
  revert w. induction entries as [|e entries IH]; intros w Hw; [done|].
  rewrite default_filled_cons. apply IH. cbn. intros p.
  rewrite list_lookup_alter. case_decide as Heq; [|apply Hw].
  subst h. destruct (heap w !! parameter e.2) as [q|] eqn:Hq; [|done].
  cbn. intros [= <-]. apply fill_object_stable. by apply Hw.
Qed.

Lemma default_filled_settles
    (entries : list (string * IParameterMetadata)) (w : World)
    (e : string * IParameterMetadata) :
  e ∈ entries →
  ∀ p, heap (default_filled entries w) !! parameter e.2 = Some p →
       fill_object (meta_defaultValue e.2) p = p.
Proof.
  revert w. induction entries as [|e0 entries IH]; intros w Hin.
  - by apply elem_of_nil in Hin.
  - rewrite default_filled_cons. apply elem_of_cons in Hin as [->|Hin]; [|by apply IH].
    apply default_filled_settled_preserved. cbn. intros p.
    rewrite list_lookup_alter_eq.
    destruct (heap w !! parameter e0.2) as [q|]; [|done].
    cbn. intros [= <-]. apply fill_object_idemp.
Qed.

Lemma default_filled_fixed
    (entries : list (string * IParameterMetadata)) (w : World) :
  (∀ e, e ∈ entries →
        ∀ p, heap w !! parameter e.2 = Some p → fill_object (meta_defaultValue e.2) p = p) →
  default_filled entries w = w.
Proof.
  induction entries as [|e entries IH]; intros Hall; [done|].
  rewrite default_filled_cons.
  assert (Hstep : set_heap (alter (fill_object (meta_defaultValue e.2)) (parameter e.2)) w = w).
  { apply set_heap_id. apply list_eq. intros j. rewrite list_lookup_alter.
    case_decide as Heq; [|done]. subst j.
    destruct (heap w !! parameter e.2) as [q|] eqn:Hq; [|done].
    cbn. f_equal. apply (Hall e); [left|done]. }
  rewrite Hstep. apply IH. intros e' Hin. apply Hall. by right.
Qed.

Lemma default_filled_idemp
    (entries : list (string * IParameterMetadata)) (w : World) :
  default_filled entries (default_filled entries w) = default_filled entries w.
Proof. apply default_filled_fixed. intros e Hin. by apply default_filled_settles. Qed.

(** The default fill leaves an object whose value is set alone. *)
Lemma default_filled_keeps_set
    (entries : list (string * IParameterMetadata)) (w : World) (h : Handle)
    (p : CommandLineParameter) :
  heap w !! h = Some p → value p ≠ None →
  heap (default_filled entries w) !! h = Some p.
Proof.
  revert w. induction entries as [|e entries IH]; intros w Hp Hv; [done|].
  rewrite default_filled_cons. apply IH; [|done]. cbn.
  rewrite list_lookup_alter. case_decide as Heq; [|done].
  subst h. rewrite Hp. cbn. by rewrite fill_object_set.
Qed.

(** C4.  The default fill never throws; it leaves every parameter object
    whose value is set (by the value fill, say) exactly as it is, so it
    writes only to parameters whose value is unset; and running it a second
    time changes nothing any more: the completion and the whole state,
    the final value of every parameter included, are those of the first
    run. *)
Theorem default_fill_only_unset_and_idempotent (w : World) :
  (default_fill w).1 = Normal () ∧
  (∀ h, value_of w h ≠ None → heap (default_fill w).2 !! h = heap w !! h) ∧
  default_fill (default_fill w).2 = default_fill w ∧
  (∀ h, value_of (default_fill (default_fill w).2).2 h = value_of (default_fill w).2 h).
Proof.
  assert (Hidem : default_fill (default_fill w).2 = default_fill w).
  { rewrite !default_fill_eq. cbn [snd].
    destruct (default_filled_this (_parameterMetadata (this w)) w) as [-> _].
    by rewrite default_filled_idemp. }
  repeat split.
  - by rewrite default_fill_eq.
  - intros h Hv. rewrite default_fill_eq. cbn [snd]. unfold value_of in Hv.
    destruct (heap w !! h) as [p|] eqn:Hp; [|done].
    apply default_filled_keeps_set; [done|]. by cbn in Hv.
  - done.
  - intros h. by rewrite Hidem.
Qed.

(** ** The metadata map *)

Lemma JsMap_set_elem_of {V : Type} (k : string) (v : V) (m : list (string * V))
    (x : string * V) :
  x ∈ JsMap.set k v m → x = (k, v) ∨ x ∈ m.
Proof.
  induction m as [|[k' v'] m IH]; cbn.
  - intros ->%list_elem_of_singleton. by left.
  - destruct (String.eqb_spec k k') as [->|Hne].
    + intros [->|Hin]%elem_of_cons; [by left|]. right. by right.
    + intros [->|Hin]%elem_of_cons; [right; by left|].
      destruct (IH Hin) as [->|?]; [by left|]. right. by right.
Qed.

Lemma JsMap_set_elem_of_new {V : Type} (k : string) (v : V) (m : list (string * V)) :
  (k, v) ∈ JsMap.set k v m.
Proof.
  induction m as [|[k' v'] m IH]; cbn; [by left|].
  destruct (String.eqb_spec k k'); [by left|by right].
Qed.

Lemma JsMap_set_elem_of_other {V : Type} (k : string) (v : V) (m : list (string * V))
    (x : string * V) :
  x.1 ≠ k → x ∈ m → x ∈ JsMap.set k v m.
Proof.
  intros Hne. induction m as [|[k' v'] m IH]; cbn; [by intros ?%elem_of_nil|].
  destruct (String.eqb_spec k k') as [->|Hkk'].
  - intros [->|Hin]%elem_of_cons; [done|by right].
  - intros [->|Hin]%elem_of_cons; [by left|]. right. by apply IH.
Qed.

(** [set] keeps the names of the map, in their order, and adds a new name
    at the end. *)
Lemma JsMap_set_names {V : Type} (k : string) (v : V) (m : list (string * V)) :
  (JsMap.set k v m).*1 = if bool_decide (k ∈ m.*1) then m.*1 else (m.*1 ++ [k])%list.
Proof.
  induction m as [|[k' v'] m IH]; cbn; [done|].
  destruct (String.eqb_spec k k') as [->|Hne].
  - rewrite bool_decide_eq_true_2 by left. done.
  - cbn. rewrite IH. destruct (bool_decide_reflect (k ∈ m.*1)) as [Hin|Hin].
    + rewrite bool_decide_eq_true_2 by (by right). done.
    + rewrite bool_decide_eq_false_2; [done|].
      intros [?|?]%elem_of_cons; congruence.
Qed.

Lemma JsMap_set_NoDup_names {V : Type} (k : string) (v : V) (m : list (string * V)) :
  NoDup m.*1 → NoDup (JsMap.set k v m).*1.
Proof.
  intros Hm. rewrite JsMap_set_names.
  destruct (bool_decide_reflect (k ∈ m.*1)) as [Hin|Hin]; [done|].
  apply NoDup_app. repeat split; [done| |apply NoDup_singleton].
  intros x Hx ->%list_elem_of_singleton. done.
Qed.

(** Where the names are distinct, a name has one entry. *)
Lemma NoDup_names_unique {V : Type} (m : list (string * V)) (k : string) (v v' : V) :
  NoDup m.*1 → (k, v) ∈ m → (k, v') ∈ m → v = v'.
Proof.
  induction m as [|[k0 v0] m IH]; cbn; [by intros _ ?%elem_of_nil|].
  intros [Hk0 Hm]%NoDup_cons [[= -> ->]|Hin]%elem_of_cons [[= Heq]|Hin']%elem_of_cons.
  - done.
  - destruct Hk0. apply list_elem_of_fmap. by exists (k0, v').
  - subst. destruct Hk0. apply list_elem_of_fmap. by exists (k0, v).
  - by apply IH.
Qed.

Lemma JsMap_set_NoDup_handles (k : string) (md : IParameterMetadata)
    (m : list (string * IParameterMetadata)) :
  NoDup (parameter <$> m.*2) →
  parameter md ∉ parameter <$> m.*2 →
  NoDup (parameter <$> (JsMap.set k md m).*2).
Proof.
  induction m as [|[k' md'] m IH]; cbn.
  - intros _ _. apply NoDup_singleton.
  - intros [Hmd' Hm]%NoDup_cons Hnew.
    apply not_elem_of_cons in Hnew as [Hne Hnew].
    destruct (String.eqb_spec k k') as [->|Hkk']; cbn.
    + apply NoDup_cons. done.
    + apply NoDup_cons. split; [|by apply IH].
      intros (md1 & Heq & ([k1 md1'] & -> & Hin)%list_elem_of_fmap)%list_elem_of_fmap.
      cbn in Heq. apply JsMap_set_elem_of in Hin as [[= -> ->]|Hin]; [congruence|].
      apply Hmd'. rewrite Heq.
      apply list_elem_of_fmap. exists md1'. split; [done|].
      apply list_elem_of_fmap. by exists (k1, md1').
Qed.

(** ** The provider invariant *)

Lemma define_world (d : Declaration) (w : World) :
  (define d w).2 = w ∨
  (define d w).2 = collided d w ∨
  ((define d w).1 = Throw ArgumentError ∧ tokenizer_refuses d w = true ∧
   (define d w).2 = refused d w) ∨
  ((define d w).1 = Normal (length (heap w)) ∧ tokenizer_refuses d w = false ∧
   (define d w).2 = declared d w).
Proof.
  rewrite define_eq. destruct (validation_error d); [by left|].
  cbn zeta. destruct (truthy _); [right; by left|].
  destruct (tokenizer_refuses d w); [right; right; by left|by do 3 right].
Qed.

Lemma consistent_fresh (c : N) (objs : list CommandLineParameter) (rejects : Tokenizer) :
  consistent {| _keyCounter := c; heap := objs; this := constructor;
                argparse_rejects := rejects |}.
Proof. repeat split; cbn; constructor. Qed.

Lemma consistent_declared (d : Declaration) (w : World) :
  consistent w → consistent (declared d w).
Proof.
  intros (Hnames & Hhandles & Hlt). unfold consistent, declared. cbn.
  assert (Hfresh : length (heap w) ∉ parameter <$> (_parameterMetadata (this w)).*2).
  { intros (md & Heq & ([k md'] & -> & Hin)%list_elem_of_fmap)%list_elem_of_fmap.
    rewrite Forall_forall in Hlt. specialize (Hlt _ Hin). cbn in *. lia. }
  repeat split.
  - by apply JsMap_set_NoDup_names.
  - by apply JsMap_set_NoDup_handles.
  - apply Forall_forall. intros x [->|Hin]%JsMap_set_elem_of.
    + cbn. rewrite length_app. cbn. lia.
    + rewrite Forall_forall in Hlt. specialize (Hlt _ Hin).
      rewrite length_app. cbn. lia.
Qed.

Lemma consistent_refused (d : Declaration) (w : World) :
  consistent w → consistent (refused d w).
Proof.
  intros (Hnames & Hhandles & Hlt). unfold consistent, refused. cbn.
  repeat split; [done..|].
  eapply Forall_impl; [done|]. intros entry Hentry. cbn beta in Hentry.
  rewrite length_app. cbn. lia.
Qed.

Lemma consistent_define (d : Declaration) (w : World) :
  consistent w → consistent (define d w).2.
Proof.
  intros Hw. destruct (define_world d w) as [->|[->|[(_ & _ & ->)|(_ & _ & ->)]]]; [done|done| |].
  - by apply consistent_refused.
  - by apply consistent_declared.
Qed.

Lemma consistent_run (ds : list Declaration) (w : World) :
  consistent w → consistent (run ds w).
Proof.
  revert w. induction ds as [|d ds IH]; intros w Hw; [done|].
  rewrite run_cons. by apply IH, consistent_define.
Qed.

(** ** Option strings and the collision detection of the tokenizer *)

Lemma elem_of_option_strings (parser : ArgumentParser) (name : string) :
  name ∈ option_strings parser ↔ ∃ registration, registration ∈ parser ∧ name ∈ registration.1.
Proof.
  unfold option_strings. rewrite list_elem_of_bind. split.
  - intros (r & Hname & Hr). by exists r.
  - intros (r & Hr & Hname). by exists r.
Qed.

Lemma conflicting_true (parser : ArgumentParser) (names : list string) (name : string) :
  name ∈ names → name ∈ option_strings parser → conflicting parser names = true.
Proof.
  intros Hnames Hname. apply bool_decide_eq_true. apply Exists_exists. by exists name.
Qed.

Lemma conflicting_false (parser : ArgumentParser) (names : list string) (name : string) :
  conflicting parser names = false → name ∈ names → name ∉ option_strings parser.
Proof.
  intros Hfalse Hnames Hname.
  by rewrite (conflicting_true parser names name) in Hfalse.
Qed.

(** The long name is among the names of the switch of a declaration, in
    the last place. *)
Lemma longName_last (d : Declaration) (k : string) :
  last (registration_of d k).1 = Some (longName_of d).
Proof. destruct d; cbn; unfold switch_names; by rewrite last_snoc. Qed.

Lemma longName_registration (d : Declaration) (k : string) :
  longName_of d ∈ (registration_of d k).1.
Proof.
  destruct d; cbn; unfold switch_names; apply elem_of_app; right; by left.
Qed.

(** A declaration whose long name is a registered option string is refused
    by the tokenizer, if it gets that far. *)
Lemma redeclaration_refused (d : Declaration) (w : World) :
  longName_of d ∈ option_strings (_argumentParser (this w)) →
  tokenizer_refuses d w = true.
Proof.
  intros Hname. unfold tokenizer_refuses. cbv zeta.
  rewrite (conflicting_true _ _ (longName_of d)); [done| |done].
  apply longName_registration.
Qed.

(** The switch of an accepted declaration carries no registered name. *)
Lemma accepted_names_fresh (d : Declaration) (w : World) (name : string) :
  tokenizer_refuses d w = false →
  name ∈ (registration_of d (requested_key (explicitKey_of d) w)).1 →
  name ∉ option_strings (_argumentParser (this w)).
Proof.
  unfold tokenizer_refuses. cbv zeta. intros [Hconflict _]%orb_false_iff.
  by apply conflicting_false.
Qed.

Lemma declared_registers (d : Declaration) (w : World) :
  longName_of d ∈ option_strings (_argumentParser (this (declared d w))).
Proof.
  apply elem_of_option_strings. eexists. split.
  - unfold declared. cbn. apply elem_of_app. right. by left.
  - apply longName_registration.
Qed.

(** Option strings are never unregistered. *)
Lemma define_keeps_registered (d : Declaration) (w : World) (name : string) :
  name ∈ option_strings (_argumentParser (this w)) →
  name ∈ option_strings (_argumentParser (this (define d w).2)).
Proof.
  intros Hname.
  destruct (define_world d w) as [->|[->|[(_ & _ & ->)|(_ & _ & ->)]]]; [done..|].
  apply elem_of_option_strings in Hname as (r & Hr & Hname).
  apply elem_of_option_strings. exists r. split; [|done].
  unfold declared. cbn. apply elem_of_app. by left.
Qed.

(** Later declarations leave a tracked entry whose long name is a
    registered option string, and the object it refers to, as they are: a
    declaration under the same long name does not get past the tokenizer. *)
Lemma tracks_define (d : Declaration) (w : World) (name : string)
    (md : IParameterMetadata) (p : CommandLineParameter) :
  name ∈ option_strings (_argumentParser (this w)) →
  tracks w name md p → tracks (define d w).2 name md p.
Proof.
  intros Hname (Hin & Hp & Hps).
  destruct (define_world d w) as [->|[->|[(_ & _ & ->)|(_ & Haccepted & ->)]]]; [done|done| |].
  - unfold tracks, refused. cbn. repeat split; [done| |].
    + rewrite lookup_app_l; [done|]. by apply lookup_lt_Some in Hp.
    + apply elem_of_app. by left.
  - unfold tracks, declared. cbn. repeat split.
    + apply JsMap_set_elem_of_other; [|done]. cbn. intros ->.
      by rewrite (redeclaration_refused d w Hname) in Haccepted.
    + rewrite lookup_app_l; [done|]. by apply lookup_lt_Some in Hp.
    + apply elem_of_app. by left.
Qed.

Lemma tracks_run (ds : list Declaration) (w : World) (name : string)
    (md : IParameterMetadata) (p : CommandLineParameter) :
  name ∈ option_strings (_argumentParser (this w)) →
  tracks w name md p → tracks (run ds w) name md p.
Proof.
  revert w. induction ds as [|d ds IH]; intros w Hname Hw; [done|].
  rewrite run_cons. apply IH; [by apply define_keeps_registered|by apply tracks_define].
Qed.

(** An accepted declaration is tracked under its long name. *)
Lemma tracks_declared (d : Declaration) (w : World) :
  tracks (declared d w) (longName_of d)
    {| parameter := length (heap w);
       meta_required := required_of d;
       meta_defaultValue := defaultValue_of d |}
    {| _key := requested_key (explicitKey_of d) w; _converter := None; value := None |}.
Proof.
  unfold tracks, declared. cbn. repeat split.
  - apply JsMap_set_elem_of_new.
  - by rewrite list_lookup_middle.
  - apply elem_of_app. right. by left.
Qed.

Lemma accepted_declared (d : Declaration) (w : World) (h : Handle) :
  (define d w).1 = Normal h →
  h = length (heap w) ∧ (define d w).2 = declared d w ∧ tokenizer_refuses d w = false.
Proof.
  rewrite define_eq. destruct (validation_error d); [discriminate|].
  cbn zeta. destruct (truthy _); [discriminate|].
  destruct (tokenizer_refuses d w); [discriminate|]. cbn. by intros [= <-].
Qed.

(** ** Resolution *)

(** The value fill writes the objects in the parameters list, and no other. *)
Lemma value_filled_lookup (data : ICommandLineParserData) (hs : list Handle)
    (w : World) (j : Handle) :
  heap (value_filled data hs w) !! j =
  if bool_decide (j ∈ hs)
  then CommandLineParameter_setValue data <$> heap w !! j
  else heap w !! j.
Proof.
  revert w. induction hs as [|h hs IH]; intros w; [done|].
  unfold value_filled in *. cbn [foldl]. rewrite IH. cbn [heap set_heap].
  rewrite list_lookup_alter.
  destruct (decide (h = j)) as [->|Hne].
  - rewrite (bool_decide_eq_true_2 (j ∈ j :: hs)) by left.
    destruct (bool_decide (j ∈ hs)); [|done].
    by destruct (heap w !! j).
  - destruct (bool_decide_reflect (j ∈ hs)) as [Hin|Hin].
    + rewrite bool_decide_eq_true_2 by (by right). done.
    + rewrite bool_decide_eq_false_2; [done|].
      intros [?|?]%elem_of_cons; congruence.
Qed.

(** The default fill leaves alone what no entry refers to. *)
Lemma default_filled_lookup_other (entries : list (string * IParameterMetadata))
    (w : World) (j : Handle) :
  j ∉ parameter <$> entries.*2 →
  heap (default_filled entries w) !! j = heap w !! j.
Proof.
  revert w. induction entries as [|e entries IH]; intros w Hj; [done|].
  cbn in Hj. apply not_elem_of_cons in Hj as [Hne Hj].
  rewrite default_filled_cons, IH by done. cbn.
  by rewrite list_lookup_alter_ne.
Qed.

(** Where the entries refer to different objects, the object of an entry is
    written once, by that entry. *)
Lemma default_filled_lookup_entry (entries : list (string * IParameterMetadata))
    (w : World) (e : string * IParameterMetadata) :
  NoDup (parameter <$> entries.*2) → e ∈ entries →
  heap (default_filled entries w) !! parameter e.2 =
  fill_object (meta_defaultValue e.2) <$> heap w !! parameter e.2.
Proof.
  revert w. induction entries as [|e0 entries IH]; intros w Hnd Hin.
  - by apply elem_of_nil in Hin.
  - cbn in Hnd. apply NoDup_cons in Hnd as [Hfresh Hnd].
    rewrite default_filled_cons. apply elem_of_cons in Hin as [->|Hin].
    + rewrite default_filled_lookup_other by done. cbn.
      by rewrite list_lookup_alter_eq.
    + rewrite IH by done. cbn. rewrite list_lookup_alter_ne; [done|].
      intros Heq. apply Hfresh. rewrite Heq.
      apply list_elem_of_fmap. exists e.2. split; [done|].
      apply list_elem_of_fmap. by exists e.
Qed.

(** What resolution does to a tracked parameter (without converter) that
    has a default and found no value in the parsed data. *)
Lemma resolution_of_tracked_default (data : ICommandLineParserData) (w : World)
    (name : string) (md : IParameterMetadata) (p : CommandLineParameter) (v : Value) :
  consistent w → tracks w name md p →
  meta_defaultValue md = Some v → _converter p = None → data !! _key p = None →
  value_of (_processParsedData data w).2 (parameter md) = Some v ∧
  name ∉ offenders (_processParsedData data w).2.
Proof.
  intros (Hnames & Hhandles & _) (Hin & Hp & Hps) Hv Hconv Hdata.
  rewrite _processParsedData_eq. cbn [snd].
  set (w1 := value_filled data (_parameters (this w)) w).
  assert (Hw1 : this w1 = this w) by apply value_filled_this.
  assert (Hvalue : value_of (default_filled (_parameterMetadata (this w)) w1) (parameter md)
                   = Some v).
  { unfold value_of.
    rewrite (default_filled_lookup_entry _ w1 (name, md)) by done. cbn [snd].
    unfold w1. rewrite value_filled_lookup, bool_decide_eq_true_2, Hp by done. cbn.
    unfold fill_object, CommandLineParameter_setValue, apply_converter. cbn.
    by rewrite Hconv, Hdata, Hv. }
  split; [done|].
  intros (md' & Hin' & _ & Hunset)%elem_of_offenders.
  destruct (default_filled_this (_parameterMetadata (this w)) w1) as [Hthis _].
  rewrite Hthis, Hw1 in Hin'.
  assert (md' = md) as -> by (by eapply NoDup_names_unique).
  congruence.
Qed.

(** C5.  A parameter declared (on a consistent provider) with [required]
    true and a defined [defaultValue], whatever is declared afterwards:
    when the parsed data holds no value for its key, the two fills leave its
    value equal to the default and [validateParameters] does not report it,
    so the resolution pass does not fail on its account: it returns unless
    some other entry of the metadata map is required and unset.  (A later
    declaration under the same long name cannot take the entry over: the
    tokenizer refuses its switch before the metadata map is written.) *)
Theorem required_parameter_with_default_resolves
    (d : Declaration) (more : list Declaration) (w : World) (h : Handle)
    (v : Value) (data : ICommandLineParserData) :
  consistent w →
  required_of d = true → defaultValue_of d = Some v →
  (define d w).1 = Normal h →
  data !! requested_key (explicitKey_of d) w = None →
  let w2 := run more (define d w).2 in
  let w3 := (_processParsedData data w2).2 in
  key_of w2 h = Some (requested_key (explicitKey_of d) w) ∧
  value_of w3 h = Some v ∧
  (longName_of d ∉ offenders w3) ∧
  ((∀ name md, (name, md) ∈ _parameterMetadata (this w2) →
               name ≠ longName_of d → meta_required md = true →
               value_of w3 (parameter md) ≠ None) →
   resolve data w2 = (Normal (), w3)).
Proof.
  intros Hw Hreq Hdflt Hacc Hdata w2 w3.
  apply accepted_declared in Hacc as (-> & Hdecl & _).
  pose proof (tracks_declared d w) as Htr. rewrite <- Hdecl in Htr.
  apply (tracks_run more) in Htr; [|rewrite Hdecl; apply declared_registers].
  fold w2 in Htr.
  assert (Hw2 : consistent w2) by (by apply consistent_run, consistent_define).
  destruct (resolution_of_tracked_default data w2 _ _ _ v Hw2 Htr)
    as [Hvalue Hnot]; [by rewrite <- Hdflt|done|done|].
  cbn [parameter] in Hvalue. fold w3 in Hvalue, Hnot.
  repeat split; [|done|done|].
  - unfold key_of. destruct Htr as (_ & Hp & _). cbn [parameter] in Hp. by rewrite Hp.
  - intros Hothers. unfold resolve, mbind, M_bind.
    assert (Hfill : _processParsedData data w2 = (Normal (), w3)).
    { unfold w3. by rewrite _processParsedData_eq. }
    rewrite Hfill, validateParameters_eq.
    destruct (offenders w3) as [|name rest] eqn:Hoff; [done|].
    assert (Hname : name ∈ offenders w3) by (rewrite Hoff; left).
    destruct (decide (name = longName_of d)) as [->|Hne]; [destruct Hnot; left|].
    apply elem_of_offenders in Hname as (md & Hin & Hr & Hunset).
    unfold w3 in Hin. rewrite _processParsedData_this in Hin.
    by destruct (Hothers name md).
Qed.

Lemma required_parameter_with_default_resolves_witness :
  value_of
    (_processParsedData ∅
       (run [FlagParameter (flag_definition "--verbose");
             StringParameter (string_definition "--name" None None None)]
          (define (StringParameter sample_required_default) fresh_world).2)).2 0
  = Some (VString "Alice")
  ∧
  resolve ∅
    (run [FlagParameter (flag_definition "--verbose");
          StringParameter (string_definition "--name" None None None)]
       (define (StringParameter sample_required_default) fresh_world).2)
  = (Normal (),
     (_processParsedData ∅
        (run [FlagParameter (flag_definition "--verbose");
              StringParameter (string_definition "--name" None None None)]
           (define (StringParameter sample_required_default) fresh_world).2)).2).
Proof.
  destruct (required_parameter_with_default_resolves
              (StringParameter sample_required_default)
              [FlagParameter (flag_definition "--verbose");
               StringParameter (string_definition "--name" None None None)]
              fresh_world 0 (VString "Alice") ∅)
    as (_ & Hvalue & _ & Hresolve).
  - apply consistent_fresh.
  - reflexivity.
  - reflexivity.
  - reflexivity.
  - reflexivity.
  - split; [exact Hvalue|]. apply Hresolve.
    intros name md Hin Hne Hreq. exfalso.
    apply elem_of_cons in Hin as [[= -> ->]|Hin]; [done|].
    apply elem_of_cons in Hin as [[= -> ->]|Hin]; [discriminate|].
    by apply elem_of_nil in Hin.
Defined.

(** ** Two declarations under one long name *)

Lemma JsMap_set_elem_of_NoDup {V : Type} (k : string) (v : V) (m : list (string * V))
    (x : string * V) :
  NoDup m.*1 → x ∈ JsMap.set k v m → x = (k, v) ∨ (x.1 ≠ k ∧ x ∈ m).
Proof.
  intros Hm Hx. destruct (decide (x.1 = k)) as [Heq|Hne].
  - left. destruct x as [k' v']. cbn in Heq. subst k'. f_equal.
    eapply NoDup_names_unique; [by apply (JsMap_set_NoDup_names k v)|done|].
    apply JsMap_set_elem_of_new.
  - right. split; [done|]. apply JsMap_set_elem_of in Hx as [->|?]; done.
Qed.

Lemma declared_metadata (d : Declaration) (w : World) :
  _parameterMetadata (this (declared d w)) =
  JsMap.set (longName_of d)
    {| parameter := length (heap w);
       meta_required := required_of d;
       meta_defaultValue := defaultValue_of d |}
    (_parameterMetadata (this w)).
Proof. reflexivity. Qed.

Lemma declared_heap (d : Declaration) (w : World) :
  heap (declared d w) =
  (heap w ++ [ {| _key := requested_key (explicitKey_of d) w;
                  _converter := None; value := None |} ])%list.
Proof. reflexivity. Qed.

Lemma declared_parameters (d : Declaration) (w : World) :
  _parameters (this (declared d w)) = (_parameters (this w) ++ [length (heap w)])%list.
Proof. reflexivity. Qed.

Lemma declared_keys (d : Declaration) (w : World) :
  _keys (this (declared d w)) =
  <[requested_key (explicitKey_of d) w := longName_of d]> (_keys (this w)).
Proof. reflexivity. Qed.

Lemma refused_heap (d : Declaration) (w : World) :
  heap (refused d w) = heap (declared d w).
Proof. reflexivity. Qed.

Lemma refused_parameters (d : Declaration) (w : World) :
  _parameters (this (refused d w)) = _parameters (this (declared d w)).
Proof. reflexivity. Qed.

Lemma refused_keys (d : Declaration) (w : World) :
  _keys (this (refused d w)) = _keys (this (declared d w)).
Proof. reflexivity. Qed.

Lemma refused_keyCounter (d : Declaration) (w : World) :
  _keyCounter (refused d w) = _keyCounter (declared d w).
Proof. reflexivity. Qed.

(** C9, amended.  On a consistent provider, a declaration that was accepted
    and a second, valid declaration with the same long name that is given a
    different, free key: the second declaration gets its key and its
    parameter object, which is appended to the parameters list, and is then
    refused by the tokenizer, whose error propagates; no switch is
    registered for it and the metadata map is not written.  Afterwards both
    parameter objects are in the parameters list, each under its key, but
    the metadata map has a single entry for the long name, holding the
    parameter, the required flag and the default of the first declaration;
    no entry refers to the second parameter.  Resolution therefore never
    looks at the required flag or the default of the second declaration:
    its parameter ends up with exactly what the parsed data holds for its
    key, and the long name is reported missing exactly when the first
    declaration is required and its parameter is unset. *)
Theorem same_long_name_keeps_first_policy
    (d1 d2 : Declaration) (w : World) (data : ICommandLineParserData) :
  let k1 := requested_key (explicitKey_of d1) w in
  let k2 := requested_key (explicitKey_of d2) (define d1 w).2 in
  let h1 := length (heap w) in
  let h2 := S (length (heap w)) in
  let w2 := (define d2 (define d1 w).2).2 in
  let w3 := (_processParsedData data w2).2 in
  consistent w →
  longName_of d1 = longName_of d2 →
  (define d1 w).1 = Normal h1 →
  validation_error d2 = None →
  _keys (this w) !! k2 = None → k1 ≠ k2 →
  (define d2 (define d1 w).2).1 = Throw ArgumentError ∧
  (_parameters (this w2) = (_parameters (this w) ++ [h1; h2])%list ∧
   key_of w2 h1 = Some k1 ∧ key_of w2 h2 = Some k2) ∧
  (_argumentParser (this w2) = _argumentParser (this (define d1 w).2) ∧
   _parameterMetadata (this w2) = _parameterMetadata (this (define d1 w).2)) ∧
  (∀ md, (longName_of d1, md) ∈ _parameterMetadata (this w2) ↔
         md = {| parameter := h1;
                 meta_required := required_of d1;
                 meta_defaultValue := defaultValue_of d1 |}) ∧
  (∀ name md, (name, md) ∈ _parameterMetadata (this w2) → parameter md ≠ h2) ∧
  value_of w3 h2 = data !! k2 ∧
  (longName_of d1 ∈ offenders w3 ↔ required_of d1 = true ∧ value_of w3 h1 = None).
Proof.
  intros k1 k2 h1 h2 w2 w3 Hw Hname Hacc Hv2 Hk2 Hk12.
  apply accepted_declared in Hacc as (_ & Hdecl & _).
  assert (Hlen : length (heap (declared d1 w)) = h2).
  { rewrite declared_heap, length_app. cbn. unfold h2. lia. }
  assert (Hk2' : requested_key (explicitKey_of d2) (declared d1 w) = k2).
  { unfold k2. by rewrite Hdecl. }
  assert (H2 : define d2 (declared d1 w) = (Throw ArgumentError, refused d2 (declared d1 w))).
  { rewrite define_eq, Hv2. cbn zeta. rewrite Hk2', declared_keys. fold k1.
    rewrite lookup_insert_ne, Hk2 by done. cbn [truthy].
    rewrite redeclaration_refused; [done|]. rewrite <- Hname. apply declared_registers. }
  assert (Hw2 : w2 = refused d2 (declared d1 w)).
  { unfold w2. rewrite Hdecl. by rewrite H2. }
  assert (Hcons : consistent w2).
  { rewrite Hw2. by apply consistent_refused, consistent_declared. }
  assert (Hmd2 : _parameterMetadata (this w2) =
            JsMap.set (longName_of d1)
              {| parameter := h1;
                 meta_required := required_of d1;
                 meta_defaultValue := defaultValue_of d1 |}
              (_parameterMetadata (this w))).
  { by rewrite Hw2. }
  assert (Hmeta : ∀ md, (longName_of d1, md) ∈ _parameterMetadata (this w2) ↔
            md = {| parameter := h1;
                    meta_required := required_of d1;
                    meta_defaultValue := defaultValue_of d1 |}).
  { intros md. split.
    - intros Hin. destruct Hcons as (Hnames & _).
      eapply NoDup_names_unique; [done..|].
      rewrite Hmd2. apply JsMap_set_elem_of_new.
    - intros ->. rewrite Hmd2. apply JsMap_set_elem_of_new. }
  assert (Hno : ∀ name md, (name, md) ∈ _parameterMetadata (this w2) → parameter md ≠ h2).
  { intros name md. rewrite Hmd2.
    intros [[= -> ->]|Hin]%JsMap_set_elem_of.
    - cbn. unfold h1, h2. lia.
    - destruct Hw as (_ & _ & Hlt). rewrite Forall_forall in Hlt.
      specialize (Hlt _ Hin). cbn in Hlt. unfold h2. lia. }
  assert (Hheap : heap w2 =
            (heap w ++ [ {| _key := k1; _converter := None; value := None |};
                         {| _key := k2; _converter := None; value := None |} ])%list).
  { rewrite Hw2, refused_heap, declared_heap, Hk2', declared_heap. by rewrite <- app_assoc. }
  assert (Hparams : _parameters (this w2) = (_parameters (this w) ++ [h1; h2])%list).
  { rewrite Hw2, refused_parameters, declared_parameters, Hlen, declared_parameters.
    by rewrite <- app_assoc. }
  assert (Hvalues : ∀ j, value_of w3 j =
            heap (default_filled (_parameterMetadata (this w2))
                    (value_filled data (_parameters (this w2)) w2)) !! j ≫= value).
  { intros j. unfold w3. by rewrite _processParsedData_eq. }
  rewrite Hdecl. rewrite H2. cbn [fst].
  split; [done|]. split; [|split; [by rewrite Hw2|split; [done|split; [done|split]]]].
  - split; [done|]. unfold key_of. rewrite Hheap. split.
    + by rewrite list_lookup_middle.
    + rewrite (lookup_app_r (heap w)) by (unfold h2; lia).
      by replace (h2 - length (heap w)) with 1 by (unfold h2; lia).
  - rewrite Hvalues. rewrite default_filled_lookup_other.
    + rewrite value_filled_lookup, bool_decide_eq_true_2.
      * rewrite Hheap. rewrite (lookup_app_r (heap w)) by (unfold h2; lia).
        by replace (h2 - length (heap w)) with 1 by (unfold h2; lia).
      * rewrite Hparams. apply elem_of_app. right. right. left.
    + intros (md & Heq & ([name md'] & -> & Hin)%list_elem_of_fmap)%list_elem_of_fmap.
      cbn in Heq. by apply (Hno name md').
  - rewrite elem_of_offenders. unfold w3 at 1. rewrite _processParsedData_this.
    split.
    + intros (md & Hin & Hr & Hunset). apply Hmeta in Hin. subst md. done.
    + intros [Hr Hunset]. eexists. split; [by apply Hmeta|done].
Qed.

Lemma same_long_name_keeps_first_policy_witness :
  (define (StringParameter (string_definition "--name" None None None))
     (define (StringParameter sample_required_default) fresh_world).2).1
  = Throw ArgumentError
  ∧
  value_of
    (_processParsedData {["key_1" := VString "Bob"]}
       (define (StringParameter (string_definition "--name" None None None))
          (define (StringParameter sample_required_default) fresh_world).2).2).2 1
  = Some (VString "Bob").
Proof.
  destruct (same_long_name_keeps_first_policy
              (StringParameter sample_required_default)
              (StringParameter (string_definition "--name" None None None))
              fresh_world {["key_1" := VString "Bob"]})
    as (Hrefused & _ & _ & _ & _ & Hvalue & _).
  - apply consistent_fresh.
  - reflexivity.
  - reflexivity.
  - reflexivity.
  - reflexivity.
  - intros H. vm_compute in H. discriminate H.
  - exact (conj Hrefused Hvalue).
Defined.

(** C9 as stated fails: the second declaration under a long name raises the
    error of the tokenizer, and the metadata map keeps the required flag and
    the default of the first declaration, which resolution applies. *)
Lemma same_long_name_counterexample :
  (longName_of (StringParameter sample_required_default)
   = longName_of (StringParameter (string_definition "--name" None None None)) ∧
   (define (StringParameter sample_required_default) fresh_world).1 = Normal 0 ∧
   parameter_keys
     (define (StringParameter (string_definition "--name" None None None))
        (define (StringParameter sample_required_default) fresh_world).2).2
   = [Some "key_0"; Some "key_1"])
  ∧
  (define (StringParameter (string_definition "--name" None None None))
     (define (StringParameter sample_required_default) fresh_world).2).1
  = Throw ArgumentError
  ∧
  _parameterMetadata
    (this (define (StringParameter (string_definition "--name" None None None))
             (define (StringParameter sample_required_default) fresh_world).2).2)
  = [("--name", {| parameter := 0; meta_required := true;
                   meta_defaultValue := Some (VString "Alice") |})]
  ∧
  value_of
    (_processParsedData ∅
       (define (StringParameter (string_definition "--name" None None None))
          (define (StringParameter sample_required_default) fresh_world).2).2).2 0
  = Some (VString "Alice").
Proof. repeat split; vm_compute; reflexivity. Qed.

(** ** Auto-generated keys *)

Global Instance auto_key_inj : Inj (=) (=) auto_key.
Proof.
  intros n m H. unfold auto_key in H.
  apply (inj (String.app "key_")) in H. by apply (inj pretty) in H.
Qed.

Lemma auto_keyed_fresh (c : N) (objs : list CommandLineParameter) (rejects : Tokenizer) :
  auto_keyed c {| _keyCounter := c; heap := objs; this := constructor;
                  argparse_rejects := rejects |}.
Proof.
  split; [cbn; lia|]. split.
  - intros k [owner Hk]. cbn in Hk. by rewrite lookup_empty in Hk.
  - exists []. repeat split; constructor.
Qed.

(** On such a provider a declaration without explicit key finds its key
    free: it gets the key, unless its definition is invalid. *)
Lemma auto_keyed_define (c0 : N) (d : Declaration) (w : World) :
  explicitKey_of d = None → auto_keyed c0 w →
  (∀ text, (define d w).1 ≠ Throw (DuplicateKeyError text)) ∧
  auto_keyed c0 (define d w).2.
Proof.
  intros Hd (Hc0 & Hkeys & ns & Hns & Hnd & Hlt). rewrite define_eq.
  destruct (validation_error d) as [message|].
  { split; [done|]. by repeat split; [..|exists ns]. }
  cbn zeta. rewrite Hd. cbn [requested_key]. fold (auto_key (_keyCounter w)).
  assert (Hfree : _keys (this w) !! auto_key (_keyCounter w) = None).
  { apply eq_None_not_Some. intros (n & Hn & Heq)%Hkeys.
    apply (inj auto_key) in Heq. lia. }
  rewrite Hfree. cbn [truthy].
  enough (Hdeclared : auto_keyed c0 (declared d w)).
  { destruct (tokenizer_refuses d w); (split; [done|exact Hdeclared]). }
  assert (Hold : ∀ h, h ∈ _parameters (this w) →
            key_of (declared d w) h = key_of w h).
  { intros h Hh. unfold key_of. rewrite declared_heap.
    assert (is_Some (key_of w h)) as [k Hk].
    { assert (Hin : key_of w h ∈ parameter_keys w) by (by apply list_elem_of_fmap_2).
      rewrite Hns in Hin. apply list_elem_of_fmap in Hin as (n & -> & _). by eexists. }
    unfold key_of in Hk. destruct (heap w !! h) as [p|] eqn:Hp; [|done].
    by rewrite (lookup_app_l_Some _ _ _ _ Hp). }
  split; [|split].
  - unfold declared. cbn. rewrite Hd. cbn. lia.
  - intros k. rewrite declared_keys, Hd. cbn [requested_key].
    fold (auto_key (_keyCounter w)).
    destruct (decide (auto_key (_keyCounter w) = k)) as [<-|Hne].
    + intros _. exists (_keyCounter w). split; [|done].
      unfold declared. cbn. rewrite Hd. cbn. lia.
    + rewrite lookup_insert_ne by done. intros (n & Hn & ->)%Hkeys.
      exists n. split; [|done]. unfold declared. cbn. rewrite Hd. cbn. lia.
  - exists (ns ++ [_keyCounter w])%list. split; [|split].
    + unfold parameter_keys. rewrite declared_parameters, !fmap_app. f_equal.
      * rewrite <- Hns. unfold parameter_keys. apply list_fmap_ext.
        intros i h Hh. apply Hold. by eapply list_elem_of_lookup_2.
      * cbn. unfold key_of. rewrite declared_heap, list_lookup_middle by done.
        cbn. by rewrite Hd.
    + apply NoDup_app. repeat split; [done| |apply NoDup_singleton].
      intros n Hn ->%list_elem_of_singleton.
      rewrite Forall_forall in Hlt. specialize (Hlt _ Hn). cbn beta in Hlt. lia.
    + apply Forall_app. split.
      * eapply Forall_impl; [done|]. intros n Hn. cbn beta in Hn.
        unfold declared. cbn. rewrite Hd. cbn. lia.
      * apply Forall_singleton. unfold declared. cbn. rewrite Hd. cbn. lia.
Qed.

Lemma Some_auto_key_inj : Inj (=) (=) (λ n : N, Some (auto_key n)).
Proof. intros n m H. apply (inj Some) in H. by apply (inj auto_key) in H. Qed.

Lemma declare_all_cons (d : Declaration) (ds : list Declaration) (w : World) :
  (declare_all (d :: ds) w).1 = (define d w).1 :: (declare_all ds (define d w).2).1.
Proof.
  cbn [declare_all]. destruct (define d w) as [r w1]. cbn.
  by destruct (declare_all ds w1).
Qed.

Lemma auto_keyed_declare_all (c0 : N) (ds : list Declaration) (w : World) :
  Forall (λ d, explicitKey_of d = None) ds → auto_keyed c0 w →
  (∀ text, Throw (DuplicateKeyError text) ∉ (declare_all ds w).1) ∧
  auto_keyed c0 (run ds w).
Proof.
  revert w. induction ds as [|d ds IH]; intros w Hds Hw.
  - split; [|done]. intros text ?%elem_of_nil. done.
  - apply Forall_cons in Hds as [Hd Hds].
    destruct (auto_keyed_define c0 d w Hd Hw) as [Hnodup Hw1].
    destruct (IH _ Hds Hw1) as [Hrest Hfinal].
    rewrite run_cons, declare_all_cons. split; [|done].
    intros text [Heq|Hin]%elem_of_cons.
    + by apply (Hnodup text).
    + by apply (Hrest text).
Qed.

(** C6.  On a provider on which no declaration supplies an explicit key,
    constructed at any point of the life of the process, key assignment
    never fails: no declaration ends in a [DuplicateKeyError].  Every
    parameter holds a key generated from a counter value reached after the
    provider was constructed, hence different from every key generated
    before, and the parameters of the provider hold pairwise different
    keys. *)
Theorem auto_generated_keys_never_collide
    (ds : list Declaration) (c : N) (objs : list CommandLineParameter)
    (rejects : Tokenizer) :
  Forall (λ d, explicitKey_of d = None) ds →
  let w0 := {| _keyCounter := c; heap := objs; this := constructor;
               argparse_rejects := rejects |} in
  (∀ text, Throw (DuplicateKeyError text) ∉ (declare_all ds w0).1) ∧
  NoDup (parameter_keys (run ds w0)) ∧
  (∀ k, k ∈ parameter_keys (run ds w0) →
        ∃ n, (c ≤ n < _keyCounter (run ds w0))%N ∧ k = Some (auto_key n)) ∧
  (∀ m, (m < c)%N → Some (auto_key m) ∉ parameter_keys (run ds w0)).
Proof.
  intros Hds w0.
  destruct (auto_keyed_declare_all c ds w0 Hds (auto_keyed_fresh c objs rejects))
    as (Hnever & _ & _ & ns & Hns & Hnd & Hlt).
  rewrite Forall_forall in Hlt.
  split; [done|]. rewrite Hns. repeat split.
  - apply (NoDup_fmap_2 _ (Inj0 := Some_auto_key_inj)). done.
  - intros k (n & -> & Hn)%list_elem_of_fmap. exists n. split; [by apply Hlt|done].
  - intros m Hm (n & Heq & Hn)%list_elem_of_fmap.
    apply Some_auto_key_inj in Heq. subst n.
    specialize (Hlt _ Hn). cbn beta in Hlt. lia.
Qed.

Lemma auto_generated_keys_never_collide_witness :
  parameter_keys
    (run [FlagParameter (flag_definition "--verbose");
          StringParameter sample_required_default;
          OptionParameter (option_definition "--level" (Some ["low"; "high"]) (Some "low"))]
       {| _keyCounter := 7; heap := []; this := constructor;
          argparse_rejects := conflicts_only |})
  = [Some "key_7"; Some "key_8"; Some "key_9"]
  ∧
  NoDup (parameter_keys
    (run [FlagParameter (flag_definition "--verbose");
          StringParameter sample_required_default;
          OptionParameter (option_definition "--level" (Some ["low"; "high"]) (Some "low"))]
       {| _keyCounter := 7; heap := []; this := constructor;
          argparse_rejects := conflicts_only |})).
Proof.
  split; [reflexivity|].
  apply (auto_generated_keys_never_collide
           [FlagParameter (flag_definition "--verbose");
            StringParameter sample_required_default;
            OptionParameter (option_definition "--level" (Some ["low"; "high"]) (Some "low"))]
           7 [] conflicts_only).
  repeat constructor.
Defined.

(** ** The static counter across provider instances *)

Lemma execute_cons (e : Event) (es : list Event) (P : Process) :
  (execute (e :: es) P).1 = (option_list (exec e P).1 ++ (execute es (exec e P).2).1)%list ∧
  (execute (e :: es) P).2 = (execute es (exec e P).2).2.
Proof.
  cbn [execute]. destruct (exec e P) as [[h|] P1]; cbn;
    by destruct (execute es P1).
Qed.

(** Objects are never removed from the heap, so the parameters keep the
    keys they hold. *)
Lemma key_held_grow (P P' : Process) (hs : list Handle) (ns : list N) :
  key_held P <$> hs = (λ n, Some (auto_key n)) <$> ns →
  (∀ h p, objects P !! h = Some p → objects P' !! h = Some p) →
  key_held P' <$> hs = (λ n, Some (auto_key n)) <$> ns.
Proof.
  intros Hns Hgrow. rewrite <- Hns. apply list_fmap_ext. intros i h Hh.
  assert (Hin : key_held P h ∈ key_held P <$> hs).
  { apply list_elem_of_fmap_2. by eapply list_elem_of_lookup_2. }
  rewrite Hns in Hin. apply list_elem_of_fmap in Hin as (n & Hn & _).
  unfold key_held in *. destruct (objects P !! h) as [p|] eqn:Hp; [|done].
  by rewrite (Hgrow h p Hp).
Qed.

Lemma auto_distinct_weaken (P P' : Process) (hs : list Handle) :
  (static_keyCounter P ≤ static_keyCounter P')%N →
  (∀ h p, objects P !! h = Some p → objects P' !! h = Some p) →
  auto_distinct P hs → auto_distinct P' hs.
Proof.
  intros Hc Hgrow (ns & Hns & Hnd & Hlt). exists ns. repeat split; [|done|].
  - by eapply key_held_grow.
  - eapply Forall_impl; [done|]. intros n Hn. cbn beta in Hn. lia.
Qed.

Lemma exec_auto_distinct (e : Event) (P : Process) (hs : list Handle) :
  auto_distinct P hs →
  auto_distinct (exec e P).2 (hs ++ option_list (exec e P).1).
Proof.
  intros HP. destruct e as [|i d]; cbn [exec].
  { cbn. rewrite app_nil_r. by eapply auto_distinct_weaken; [..|done]. }
  destruct (instances P !! i) as [p|]; [|cbn; by rewrite app_nil_r].
  rewrite define_eq. destruct (validation_error d) as [message|].
  { cbn. rewrite app_nil_r. by eapply auto_distinct_weaken; [..|done]. }
  cbn zeta. destruct (truthy _).
  { cbn. rewrite app_nil_r. eapply auto_distinct_weaken; [..|done]; [|done].
    cbn. unfold counter_after. cbn. destruct (explicitKey_of d); lia. }
  enough (Hdeclared : auto_distinct (leave P i (declared d (enter P p)))
                        (hs ++ match explicitKey_of d with
                               | None => [length (objects P)]
                               | Some _ => []
                               end)).
  { destruct (tokenizer_refuses d (enter P p)), (explicitKey_of d); exact Hdeclared. }
  assert (Hgrow : ∀ h q, objects P !! h = Some q →
            objects (leave P i (declared d (enter P p))) !! h = Some q).
  { intros h q Hq. cbn. by apply lookup_app_l_Some. }
  destruct (explicitKey_of d) as [k|] eqn:Hd.
  - cbn [fst snd option_list]. rewrite app_nil_r.
    eapply auto_distinct_weaken; [..|done]; [|done]. cbn. rewrite Hd. cbn. lia.
  - cbn [fst snd option_list]. destruct HP as (ns & Hns & Hnd & Hlt).
    exists (ns ++ [static_keyCounter P])%list. split; [|split].
    + rewrite !fmap_app. f_equal; [by eapply key_held_grow|].
      cbn. unfold key_held. cbn. rewrite list_lookup_middle by done.
      cbn. by rewrite Hd.
    + apply NoDup_app. repeat split; [done| |apply NoDup_singleton].
      intros n Hn ->%list_elem_of_singleton.
      rewrite Forall_forall in Hlt. specialize (Hlt _ Hn). cbn beta in Hlt. lia.
    + apply Forall_app. split.
      * eapply Forall_impl; [done|]. intros n Hn. cbn beta in Hn.
        cbn. rewrite Hd. cbn. lia.
      * apply Forall_singleton. cbn. rewrite Hd. cbn. lia.
Qed.

Lemma execute_auto_distinct (es : list Event) (P : Process) (hs : list Handle) :
  auto_distinct P hs →
  auto_distinct (execute es P).2 (hs ++ (execute es P).1).
Proof.
  revert P hs. induction es as [|e es IH]; intros P hs HP.
  - cbn. by rewrite app_nil_r.
  - destruct (execute_cons e es P) as [-> ->]. rewrite app_assoc.
    by apply IH, exec_auto_distinct.
Qed.

(** C10.  The counter behind the auto-generated keys is a static field,
    one for all provider instances of the process.  In any history of a
    process, made of provider constructions and of declarations on any of
    the providers constructed so far, the parameters that were given an
    auto-generated key, on whichever provider, hold pairwise different
    keys, each generated from a counter value the process has passed.  In
    particular a provider constructed later never generates a key that an
    auto-keyed parameter of an earlier provider holds. *)
Theorem auto_generated_keys_distinct_across_providers
    (rejects : Tokenizer) (es : list Event) :
  NoDup (key_held (execute es (startup rejects)).2 <$> (execute es (startup rejects)).1) ∧
  Forall (λ h, ∃ n, (n < static_keyCounter (execute es (startup rejects)).2)%N ∧
                    key_held (execute es (startup rejects)).2 h = Some (auto_key n))
         (execute es (startup rejects)).1.
Proof.
  assert (Hstart : auto_distinct (startup rejects) []).
  { exists []. repeat split; constructor. }
  destruct (execute_auto_distinct es (startup rejects) [] Hstart) as (ns & Hns & Hnd & Hlt).
  rewrite app_nil_l in Hns. split.
  - rewrite Hns. by apply (NoDup_fmap_2 _ (Inj0 := Some_auto_key_inj)).
  - apply Forall_forall. intros h Hh.
    assert (Hin : key_held (execute es (startup rejects)).2 h
                  ∈ key_held (execute es (startup rejects)).2 <$> (execute es (startup rejects)).1)
      by (by apply list_elem_of_fmap_2).
    rewrite Hns in Hin. apply list_elem_of_fmap in Hin as (n & Heq & Hn).
    exists n. split; [|done].
    rewrite Forall_forall in Hlt. by apply Hlt.
Qed.

(** Two providers in one process: the second provider's first auto-generated
    key continues where the first provider stopped. *)
Example two_providers_share_the_counter :
  let history :=
    [Construct;
     Call 0 (FlagParameter (flag_definition "--verbose"));
     Construct;
     Call 1 (FlagParameter (flag_definition "--verbose"));
     Call 0 (StringParameter sample_required_default)] in
  key_held (execute history (startup conflicts_only)).2 <$> (execute history (startup conflicts_only)).1
  = [Some "key_0"; Some "key_1"; Some "key_2"]
  ∧ parameter_keys (enter (execute history (startup conflicts_only)).2
                      (default constructor (instances (execute history (startup conflicts_only)).2 !! 1)))
    = [Some "key_1"].
Proof. split; reflexivity. Qed.

(** ** Scenarios of the specification *)

(** A flag [--verbose] and a required string [--name]: when the parsed data
    holds nothing for the name, resolution throws and lists it; when it
    holds a name, both values are read off the data. *)
Example scenario_missing_required_name :
  (resolve {["key_0" := VBoolean true]}
     (run [FlagParameter (flag_definition "--verbose");
           StringParameter (string_definition "--name" None (Some true) None)]
        fresh_world)).1
  = Throw (MissingRequiredParametersError "Missing required parameters: --name").
Proof. reflexivity. Qed.

Example scenario_name_supplied :
  (resolve {["key_0" := VBoolean false; "key_1" := VString "Alice"]}
     (run [FlagParameter (flag_definition "--verbose");
           StringParameter (string_definition "--name" None (Some true) None)]
        fresh_world)).1
  = Normal ()
  ∧
  value_of
    (resolve {["key_0" := VBoolean false; "key_1" := VString "Alice"]}
       (run [FlagParameter (flag_definition "--verbose");
             StringParameter (string_definition "--name" None (Some true) None)]
          fresh_world)).2
  <$> [0; 1]
  = [Some (VBoolean false); Some (VString "Alice")].
Proof. split; reflexivity. Qed.

(** An enumerated option [--level] with default [low] and no value in the
    parsed data resolves to the default. *)
Example scenario_option_default :
  value_of
    (resolve ∅
       (run [OptionParameter
               (option_definition "--level" (Some ["low"; "high"]) (Some "low"))]
          fresh_world)).2 0
  = Some (VString "low").
Proof. reflexivity. Qed.

(** * Further properties of the provider *)

(** ** Invariants of a sequence of declarations *)

Lemma run_invariant (Q : Declaration → Prop) (P : World → Prop) (ds : list Declaration)
    (w : World) :
  (∀ d w, Q d → P w → P (define d w).2) →
  Forall Q ds → P w → P (run ds w).
Proof.
  intros Hstep. revert w. induction ds as [|d ds IH]; intros w Hds Hw; [done|].
  apply Forall_cons in Hds as [Hd Hds]. rewrite run_cons. apply IH; [done|].
  by apply Hstep.
Qed.

(** A new object does not disturb the keys the listed parameters hold. *)
Lemma parameter_keys_declared (d : Declaration) (w : World) :
  (∀ h, h ∈ _parameters (this w) → is_Some (key_of w h)) →
  parameter_keys (declared d w)
  = (parameter_keys w ++ [Some (requested_key (explicitKey_of d) w)])%list.
Proof.
  intros Hsome. unfold parameter_keys.
  rewrite declared_parameters, fmap_app. f_equal.
  - apply list_fmap_ext. intros i h Hh.
    destruct (Hsome h) as [k Hk]; [by eapply list_elem_of_lookup_2|].
    unfold key_of in *. rewrite declared_heap.
    destruct (heap w !! h) as [p|] eqn:Hp; [|done].
    by rewrite (lookup_app_l_Some _ _ _ _ Hp).
  - cbn. unfold key_of. by rewrite declared_heap, list_lookup_middle.
Qed.

Lemma keys_owned_fresh (c : N) (objs : list CommandLineParameter) (rejects : Tokenizer) :
  keys_owned {| _keyCounter := c; heap := objs; this := constructor;
                argparse_rejects := rejects |}.
Proof.
  split.
  - intros k owner Hk. cbn in Hk. by rewrite lookup_empty in Hk.
  - exists []. repeat split; [constructor|]. intros k ?%elem_of_nil. done.
Qed.

Lemma keys_owned_define (d : Declaration) (w : World) :
  longName_of d ≠ EmptyString → keys_owned w → keys_owned (define d w).2.
Proof.
  intros Hname (Howners & ks & Hks & Hnd & Hreg). rewrite define_eq.
  destruct (validation_error d); [by split; [|exists ks]|].
  cbn zeta. set (k := requested_key (explicitKey_of d) w).
  destruct (truthy (_keys (this w) !! k)) eqn:Ht; [by split; [|exists ks]|].
  assert (Hfree : _keys (this w) !! k = None).
  { destruct (_keys (this w) !! k) as [owner|] eqn:Hk; [|done].
    by rewrite (truthy_Some owner (Howners k owner Hk)) in Ht. }
  enough (Hdeclared : keys_owned (declared d w))
    by (destruct (tokenizer_refuses d w); exact Hdeclared).
  split.
  - intros k' owner. rewrite declared_keys. fold k.
    destruct (decide (k = k')) as [<-|Hne].
    + rewrite lookup_insert_eq. by intros [= <-].
    + rewrite lookup_insert_ne by done. apply Howners.
  - exists (ks ++ [k])%list. split; [|split].
    + rewrite parameter_keys_declared, Hks, fmap_app; [done|].
      intros h Hh.
      assert (Hin : key_of w h ∈ parameter_keys w) by (by apply list_elem_of_fmap_2).
      rewrite Hks in Hin. apply list_elem_of_fmap in Hin as (k' & -> & _). by eexists.
    + apply NoDup_app. repeat split; [done| |apply NoDup_singleton].
      intros k' Hk' ->%list_elem_of_singleton.
      destruct (Hreg _ Hk') as [owner Howner]. congruence.
    + intros k' [Hk' | ->%list_elem_of_singleton]%elem_of_app; rewrite declared_keys; fold k.
      * destruct (decide (k = k')) as [<-|Hne]; [by rewrite lookup_insert_eq|].
        rewrite lookup_insert_ne by done. by apply Hreg.
      * by rewrite lookup_insert_eq.
Qed.

(** X1.  Whatever is declared on a provider, with explicit keys or without,
    accepted or refused (by the key registry or by the tokenizer), as long
    as the long names are non-empty: the parameters of the provider hold
    pairwise different keys, and each of these keys is registered to an
    owner. *)
Theorem parameter_keys_are_unique
    (ds : list Declaration) (c : N) (objs : list CommandLineParameter)
    (rejects : Tokenizer) :
  Forall (λ d, longName_of d ≠ EmptyString) ds →
  NoDup (parameter_keys (run ds {| _keyCounter := c; heap := objs; this := constructor;
                                   argparse_rejects := rejects |})) ∧
  ∀ h, h ∈ _parameters (this (run ds {| _keyCounter := c; heap := objs;
                                        this := constructor;
                                        argparse_rejects := rejects |})) →
       ∃ k owner,
         key_of (run ds {| _keyCounter := c; heap := objs; this := constructor;
                           argparse_rejects := rejects |}) h = Some k ∧
         _keys (this (run ds {| _keyCounter := c; heap := objs; this := constructor;
                                argparse_rejects := rejects |})) !! k
         = Some owner ∧
         owner ≠ EmptyString.
Proof.
  intros Hds.
  destruct (run_invariant _ keys_owned ds _ keys_owned_define Hds
              (keys_owned_fresh c objs rejects))
    as (Howners & ks & Hks & Hnd & Hreg).
  split.
  - rewrite Hks. by apply (NoDup_fmap_2 Some).
  - intros h Hh.
    assert (Hin : key_of (run ds {| _keyCounter := c; heap := objs; this := constructor;
                                    argparse_rejects := rejects |}) h
                  ∈ parameter_keys (run ds {| _keyCounter := c; heap := objs;
                                              this := constructor;
                                              argparse_rejects := rejects |}))
      by (by apply list_elem_of_fmap_2).
    rewrite Hks in Hin. apply list_elem_of_fmap in Hin as (k & Hk & Hkin).
    destruct (Hreg k Hkin) as [owner Howner].
    exists k, owner. repeat split; [done..|]. by eapply Howners.
Qed.

Lemma parameter_keys_are_unique_witness :
  parameter_keys
    (run [StringParameter sample_name;
          IntegerParameter sample_count;
          FlagParameter (flag_definition "--verbose");
          StringParameter sample_key_0;
          StringParameter sample_required_default]
       fresh_world)
  = [Some "k"; Some "key_0"; Some "key_1"]
  ∧
  NoDup (parameter_keys
    (run [StringParameter sample_name;
          IntegerParameter sample_count;
          FlagParameter (flag_definition "--verbose");
          StringParameter sample_key_0;
          StringParameter sample_required_default]
       fresh_world)).
Proof.
  split; [reflexivity|].
  apply (parameter_keys_are_unique
           [StringParameter sample_name;
            IntegerParameter sample_count;
            FlagParameter (flag_definition "--verbose");
            StringParameter sample_key_0;
            StringParameter sample_required_default] 0 [] conflicts_only).
  repeat constructor; discriminate.
Defined.

(** ** The tokenizer and the metadata map *)

Lemma dest_of_registration (d : Declaration) (k : string) :
  dest_of (registration_of d k) = Some (OString k).
Proof. by destruct d. Qed.

Lemma aligned_fresh (c : N) (objs : list CommandLineParameter) (rejects : Tokenizer) :
  aligned {| _keyCounter := c; heap := objs; this := constructor;
             argparse_rejects := rejects |}.
Proof. repeat split; try done; by apply elem_of_nil in H. Qed.

Lemma key_of_declared_old (d : Declaration) (w : World) (h : Handle) :
  is_Some (key_of w h) → key_of (declared d w) h = key_of w h.
Proof.
  intros [k Hk]. unfold key_of in *. rewrite declared_heap.
  destruct (heap w !! h) as [p|] eqn:Hp; [|done].
  by rewrite (lookup_app_l_Some _ _ _ _ Hp).
Qed.

Lemma key_of_declared_new (d : Declaration) (w : World) :
  key_of (declared d w) (length (heap w)) = Some (requested_key (explicitKey_of d) w).
Proof. unfold key_of. by rewrite declared_heap, list_lookup_middle. Qed.

(** [set] on a name the map does not hold appends the entry. *)
Lemma JsMap_set_fresh {V : Type} (k : string) (v : V) (m : list (string * V)) :
  k ∉ m.*1 → JsMap.set k v m = (m ++ [(k, v)])%list.
Proof.
  induction m as [|[k' v'] m IH]; cbn; [done|].
  intros [Hne Hk]%not_elem_of_cons.
  destruct (String.eqb_spec k k') as [->|_]; [done|]. by rewrite IH.
Qed.

(** Where switches and entries correspond, the long name of every entry is
    a registered option string. *)
Lemma aligned_names_registered (w : World) (name : string) :
  aligned w → name ∈ (_parameterMetadata (this w)).*1 →
  name ∈ option_strings (_argumentParser (this w)).
Proof.
  intros (Hnames & _ & _) Hname.
  assert (Hin : Some name ∈ last <$> (_argumentParser (this w)).*1).
  { rewrite Hnames. by apply list_elem_of_fmap_2. }
  apply list_elem_of_fmap in Hin as (names & Hlast & (r & -> & Hr)%list_elem_of_fmap).
  apply elem_of_option_strings. exists r. split; [done|].
  by apply last_Some_elem_of.
Qed.

Lemma aligned_define (d : Declaration) (w : World) :
  aligned w → aligned (define d w).2.
Proof.
  intros Hw. pose proof Hw as (Hnames & Hdest & Hlisted).
  destruct (define_world d w) as [->|[->|[(_ & _ & ->)|(_ & Haccepted & ->)]]];
    [done|exact Hw| |].
  - split; [exact Hnames|]. split.
    + cbn [this refused _argumentParser _parameterMetadata]. rewrite Hdest.
      apply list_fmap_ext. intros i entry Hentry.
      change (key_of (refused d w)) with (key_of (declared d w)).
      rewrite key_of_declared_old; [done|].
      apply Hlisted. by eapply list_elem_of_lookup_2.
    + intros entry Hentry. destruct (Hlisted entry Hentry) as [Hin Hsome]. split.
      * rewrite refused_parameters, declared_parameters. apply elem_of_app. by left.
      * change (key_of (refused d w)) with (key_of (declared d w)).
        by rewrite key_of_declared_old.
  - assert (Hfresh : longName_of d ∉ (_parameterMetadata (this w)).*1).
    { intros Hin. apply (aligned_names_registered w) in Hin; [|done].
      by rewrite (redeclaration_refused d w Hin) in Haccepted. }
    assert (Hmd : _parameterMetadata (this (declared d w))
                  = (_parameterMetadata (this w)
                     ++ [(longName_of d,
                          {| parameter := length (heap w);
                             meta_required := required_of d;
                             meta_defaultValue := defaultValue_of d |})])%list).
    { rewrite declared_metadata. by apply JsMap_set_fresh. }
    split; [|split].
    + rewrite Hmd. cbn [this declared _argumentParser].
      rewrite !fmap_app, Hnames. cbn. by rewrite longName_last.
    + rewrite Hmd. cbn [this declared _argumentParser].
      rewrite !fmap_app, Hdest. f_equal.
      * apply list_fmap_ext. intros i entry Hentry.
        rewrite key_of_declared_old; [done|].
        apply Hlisted. by eapply list_elem_of_lookup_2.
      * cbn. by rewrite dest_of_registration, key_of_declared_new.
    + intros entry. rewrite Hmd, declared_parameters.
      intros [Hentry | ->%list_elem_of_singleton]%elem_of_app.
      * destruct (Hlisted entry Hentry) as [Hin Hsome]. split.
        -- apply elem_of_app. by left.
        -- by rewrite key_of_declared_old.
      * cbn [snd parameter]. split.
        -- apply elem_of_app. right. by left.
        -- rewrite key_of_declared_new. by eexists.
Qed.

Lemma aligned_run (ds : list Declaration) (w : World) :
  aligned w → aligned (run ds w).
Proof.
  intros Hw. apply (run_invariant (λ _, True) aligned ds); [|by apply Forall_forall|done].
  intros d w' _. apply aligned_define.
Qed.

(** X2.  On every provider the switches registered with the tokenizer and
    the entries of the metadata map correspond one to one, in order of
    declaration: the last name of each switch is the long name of its
    entry, and the [dest] of the switch, under which the tokenizer reports
    its raw value, is the key held by the parameter of the entry, under
    which the value fill looks the raw value up; that parameter is in the
    parameters list.  (The parameters list may hold more: the parameters
    of the declarations the tokenizer refused.) *)
Theorem switches_correspond_to_metadata_entries
    (ds : list Declaration) (c : N) (objs : list CommandLineParameter)
    (rejects : Tokenizer) :
  let w := run ds {| _keyCounter := c; heap := objs; this := constructor;
                     argparse_rejects := rejects |} in
  last <$> (_argumentParser (this w)).*1 = Some <$> (_parameterMetadata (this w)).*1 ∧
  dest_of <$> _argumentParser (this w)
  = (λ entry, OString <$> key_of w (parameter entry.2)) <$> _parameterMetadata (this w) ∧
  ∀ entry, entry ∈ _parameterMetadata (this w) →
           parameter entry.2 ∈ _parameters (this w) ∧
           is_Some (key_of w (parameter entry.2)).
Proof. apply aligned_run, aligned_fresh. Qed.

(** Each declaration that gets as far as the tokenizer adds one parameter;
    each accepted declaration adds one switch. *)
Lemma declare_all_lengths (ds : list Declaration) (w : World) :
  length (_parameters (this (run ds w)))
  = length (_parameters (this w)) + length (filter (λ r, got_key r = true) (declare_all ds w).1) ∧
  length (_argumentParser (this (run ds w)))
  = length (_argumentParser (this w))
    + length (filter (λ r, accepted r = true) (declare_all ds w).1).
Proof.
  revert w. induction ds as [|d ds IH]; intros w.
  - cbn. lia.
  - rewrite run_cons, declare_all_cons. destruct (IH (define d w).2) as (Hp & Ha).
    rewrite Hp, Ha. rewrite !filter_cons. rewrite define_eq in *.
    destruct (validation_error d).
    { cbn [fst snd accepted got_key] in *. rewrite !decide_False by done. lia. }
    cbn zeta in *. destruct (truthy _).
    { cbn [fst snd accepted got_key collided this] in *. rewrite !decide_False by done. lia. }
    destruct (tokenizer_refuses d w).
    + cbn [fst snd accepted got_key] in *.
      rewrite decide_True, decide_False by done.
      rewrite refused_parameters, declared_parameters.
      cbn [this refused _argumentParser length].
      rewrite !length_app. cbn [length]. lia.
    + cbn [fst snd accepted got_key] in *. rewrite !decide_True by done.
      rewrite declared_parameters.
      cbn [this declared _argumentParser length].
      rewrite !length_app. cbn [length]. lia.
Qed.

(** X7.  After any sequence of declarations on a provider, the number of
    switches registered with the tokenizer and the number of entries of the
    metadata map both equal the number of declarations that returned: the
    tokenizer refusing a long name that is registered, an accepted
    declaration never replaces an entry, and the long names of the entries
    are pairwise different.  The number of parameters is the number of
    declarations that got as far as the tokenizer: it exceeds the number of
    switches by one for every declaration the tokenizer refused. *)
Theorem accepted_declarations_are_counted
    (ds : list Declaration) (c : N) (objs : list CommandLineParameter)
    (rejects : Tokenizer) :
  let w0 := {| _keyCounter := c; heap := objs; this := constructor;
               argparse_rejects := rejects |} in
  length (_parameters (this (run ds w0)))
  = length (filter (λ r, got_key r = true) (declare_all ds w0).1) ∧
  length (_argumentParser (this (run ds w0)))
  = length (filter (λ r, accepted r = true) (declare_all ds w0).1) ∧
  length (_parameterMetadata (this (run ds w0)))
  = length (filter (λ r, accepted r = true) (declare_all ds w0).1) ∧
  NoDup (_parameterMetadata (this (run ds w0))).*1.
Proof.
  intros w0. destruct (declare_all_lengths ds w0) as (Hp & Ha).
  destruct (aligned_run ds w0 (aligned_fresh c objs rejects)) as (Hnames & _ & _).
  apply (f_equal length) in Hnames. rewrite !length_fmap in Hnames.
  cbn [w0 this constructor _parameters _argumentParser length] in Hp, Ha.
  repeat split; [lia..|].
  apply (consistent_run ds _ (consistent_fresh c objs rejects)).
Qed.

(** ** What resolution gives each parameter *)

Lemma resolution_of_tracked (data : ICommandLineParserData) (w : World)
    (name : string) (md : IParameterMetadata) (p : CommandLineParameter) :
  consistent w → tracks w name md p → _converter p = None →
  value_of (_processParsedData data w).2 (parameter md)
  = match data !! _key p with
    | Some v => Some v
    | None => meta_defaultValue md
    end
  ∧
  (name ∈ offenders (_processParsedData data w).2 ↔
   meta_required md = true ∧ data !! _key p = None ∧ meta_defaultValue md = None).
Proof.
  intros (Hnames & Hhandles & _) (Hin & Hp & Hps) Hconv.
  set (w1 := value_filled data (_parameters (this w)) w).
  assert (Hvalue : value_of (_processParsedData data w).2 (parameter md)
                   = match data !! _key p with
                     | Some v => Some v
                     | None => meta_defaultValue md
                     end).
  { rewrite _processParsedData_eq. cbn [snd]. fold w1. unfold value_of.
    rewrite (default_filled_lookup_entry _ w1 (name, md)) by done. cbn [snd].
    unfold w1. rewrite value_filled_lookup, bool_decide_eq_true_2, Hp by done. cbn.
    unfold fill_object, CommandLineParameter_setValue, apply_converter. cbn.
    rewrite Hconv. destruct (data !! _key p); [done|].
    by destruct (meta_defaultValue md). }
  split; [done|].
  rewrite elem_of_offenders, _processParsedData_this. split.
  - intros (md' & Hin' & Hreq & Hunset).
    assert (md' = md) as -> by (by eapply NoDup_names_unique).
    rewrite Hvalue in Hunset. split; [done|].
    destruct (data !! _key p); [done|]. by split.
  - intros (Hreq & Hdata & Hdflt). exists md. repeat split; [done..|].
    by rewrite Hvalue, Hdata.
Qed.

(** X3.  The value resolution gives a declared parameter (on a consistent
    provider, whatever is declared afterwards): whatever the parsed data
    holds for its key, [null] included, and only when the data holds
    nothing, the default of its declaration, which may be absent.  A value
    the user supplied is never replaced by the default. *)
Theorem resolved_value_is_data_else_default
    (d : Declaration) (more : list Declaration) (w : World) (h : Handle)
    (data : ICommandLineParserData) :
  consistent w →
  (define d w).1 = Normal h →
  value_of (_processParsedData data (run more (define d w).2)).2 h
  = match data !! requested_key (explicitKey_of d) w with
    | Some v => Some v
    | None => defaultValue_of d
    end.
Proof.
  intros Hw Hacc.
  apply accepted_declared in Hacc as (-> & Hdecl & _).
  pose proof (tracks_declared d w) as Htr. rewrite <- Hdecl in Htr.
  apply (tracks_run more) in Htr; [|rewrite Hdecl; apply declared_registers].
  assert (Hw2 : consistent (run more (define d w).2))
    by (by apply consistent_run, consistent_define).
  by destruct (resolution_of_tracked data _ _ _ _ Hw2 Htr eq_refl) as [Hvalue _].
Qed.

Lemma resolved_value_is_data_else_default_witness :
  value_of
    (_processParsedData {["key_0" := VNull]}
       (run [FlagParameter (flag_definition "--verbose");
             StringParameter (string_definition "--name" None None (Some "Bob"))]
          (define (StringParameter sample_required_default) fresh_world).2)).2 0
  = Some VNull.
Proof.
  rewrite (resolved_value_is_data_else_default
             (StringParameter sample_required_default)
             [FlagParameter (flag_definition "--verbose");
              StringParameter (string_definition "--name" None None (Some "Bob"))]
             fresh_world 0 {["key_0" := VNull]}).
  - reflexivity.
  - apply consistent_fresh.
  - reflexivity.
Defined.

(** X4.  [validateParameters] reports a declared parameter (on a consistent
    provider, whatever is declared afterwards) exactly when it was declared
    required, without default, and the parsed data holds nothing for its
    key; in that case the resolution pass throws the
    [MissingRequiredParametersError]. *)
Theorem reported_iff_required_without_value_or_default
    (d : Declaration) (more : list Declaration) (w : World) (h : Handle)
    (data : ICommandLineParserData) :
  consistent w →
  (define d w).1 = Normal h →
  (longName_of d ∈ offenders (_processParsedData data (run more (define d w).2)).2 ↔
   required_of d = true ∧
   data !! requested_key (explicitKey_of d) w = None ∧
   defaultValue_of d = None)
  ∧
  (required_of d = true →
   data !! requested_key (explicitKey_of d) w = None →
   defaultValue_of d = None →
   (resolve data (run more (define d w).2)).1
   = Throw (MissingRequiredParametersError
              ("Missing required parameters: " +:+
               join ", " (offenders (_processParsedData data (run more (define d w).2)).2)))).
Proof.
  intros Hw Hacc.
  apply accepted_declared in Hacc as (-> & Hdecl & _).
  pose proof (tracks_declared d w) as Htr. rewrite <- Hdecl in Htr.
  apply (tracks_run more) in Htr; [|rewrite Hdecl; apply declared_registers].
  assert (Hw2 : consistent (run more (define d w).2))
    by (by apply consistent_run, consistent_define).
  destruct (resolution_of_tracked data _ _ _ _ Hw2 Htr eq_refl) as [_ Hiff].
  cbn [meta_required meta_defaultValue _key] in Hiff.
  split; [done|]. intros Hreq Hdata Hdflt.
  assert (Hin : longName_of d
                ∈ offenders (_processParsedData data (run more (define d w).2)).2)
    by (by apply Hiff).
  unfold resolve, mbind, M_bind.
  destruct (_processParsedData data (run more (define d w).2)) as [r w3] eqn:Hfill.
  assert (r = Normal ()) as -> by (by rewrite _processParsedData_eq in Hfill; injection Hfill).
  cbn [snd] in *. rewrite validateParameters_eq. cbn [fst].
  destruct (offenders w3) eqn:Hoff; [by apply elem_of_nil in Hin|done].
Qed.

Lemma reported_iff_required_without_value_or_default_witness :
  (resolve {["key_0" := VString "Alice"]}
     (run [StringParameter (string_definition "--title" None (Some true) None)]
        (define (StringParameter (string_definition "--name" None (Some true) None))
           fresh_world).2)).1
  = Throw (MissingRequiredParametersError "Missing required parameters: --title").
Proof.
  destruct (reported_iff_required_without_value_or_default
              (StringParameter (string_definition "--title" None (Some true) None))
              []
              (define (StringParameter (string_definition "--name" None (Some true) None))
                 fresh_world).2
              1 {["key_0" := VString "Alice"]}) as [_ Hthrows].
  - apply consistent_define, consistent_fresh.
  - reflexivity.
  - exact (Hthrows eq_refl eq_refl eq_refl).
Defined.

(** ** Resolving again *)

Lemma World_eq (w w' : World) :
  _keyCounter w = _keyCounter w' → heap w = heap w' → this w = this w' →
  argparse_rejects w = argparse_rejects w' → w = w'.
Proof. destruct w, w'. cbn. by intros -> -> -> ->. Qed.

Lemma default_filled_argparse (entries : list (string * IParameterMetadata)) (w : World) :
  argparse_rejects (default_filled entries w) = argparse_rejects w.
Proof.
  revert w. induction entries as [|e entries IH]; intros w; [done|].
  by rewrite default_filled_cons, IH.
Qed.

Lemma value_filled_argparse (data : ICommandLineParserData) (hs : list Handle) (w : World) :
  argparse_rejects (value_filled data hs w) = argparse_rejects w.
Proof.
  revert w. induction hs as [|h hs IH]; intros w; [done|].
  unfold value_filled in *. cbn [foldl]. by rewrite IH.
Qed.

Lemma entries_listed_define (d : Declaration) (w : World) :
  entries_listed w → entries_listed (define d w).2.
Proof.
  intros Hw. destruct (define_world d w) as [->|[->|[(_ & _ & ->)|(_ & _ & ->)]]]; [done|done| |].
  - intros entry Hentry. rewrite refused_parameters, declared_parameters.
    apply elem_of_app. left. by apply Hw.
  - intros entry. rewrite declared_metadata, declared_parameters.
    intros [->|Hin]%JsMap_set_elem_of; apply elem_of_app; [right; by left|left; by apply Hw].
Qed.

Lemma identity_default_filled (entries : list (string * IParameterMetadata)) (w : World)
    (j : Handle) :
  identity_of <$> heap (default_filled entries w) !! j = identity_of <$> heap w !! j.
Proof.
  revert w. induction entries as [|e entries IH]; intros w; [done|].
  rewrite default_filled_cons, IH. cbn. rewrite list_lookup_alter.
  case_decide as Heq; [|done]. subst j.
  destruct (heap w !! parameter e.2) as [p|]; [|done]. cbn. f_equal.
  unfold fill_object, identity_of. by destruct (value p), (meta_defaultValue e.2).
Qed.

Lemma identity_value_filled (data : ICommandLineParserData) (hs : list Handle) (w : World)
    (j : Handle) :
  identity_of <$> heap (value_filled data hs w) !! j = identity_of <$> heap w !! j.
Proof.
  rewrite value_filled_lookup. destruct (bool_decide (j ∈ hs)); [|done].
  by destruct (heap w !! j).
Qed.

Lemma setValue_identity (data : ICommandLineParserData) (a b : option CommandLineParameter) :
  identity_of <$> a = identity_of <$> b →
  CommandLineParameter_setValue data <$> a = CommandLineParameter_setValue data <$> b.
Proof.
  destruct a as [[k c v]|], b as [[k' c' v']|]; cbn; try done.
  unfold identity_of. cbn. by intros [= -> ->].
Qed.

(** The value fill starts from scratch: what an earlier resolution left in
    the parameters does not reach the next one. *)
Lemma resolving_again (data1 data2 : ICommandLineParserData) (w : World) :
  entries_listed w →
  _processParsedData data2 (_processParsedData data1 w).2 = _processParsedData data2 w.
Proof.
  intros Hlisted.
  rewrite (_processParsedData_eq data2), _processParsedData_this.
  rewrite (_processParsedData_eq data2 w). f_equal. f_equal.
  rewrite _processParsedData_eq. cbn [snd].
  set (hs := _parameters (this w)). set (entries := _parameterMetadata (this w)).
  destruct (value_filled_this data1 hs w) as [Hthis1 Hc1].
  destruct (default_filled_this entries (value_filled data1 hs w)) as [Hthis2 Hc2].
  apply World_eq.
  - destruct (value_filled_this data2 hs (default_filled entries (value_filled data1 hs w)))
      as [_ ->].
    destruct (value_filled_this data2 hs w) as [_ ->]. congruence.
  - apply list_eq. intros j. rewrite !value_filled_lookup.
    destruct (bool_decide_reflect (j ∈ hs)) as [Hj|Hj].
    + apply setValue_identity.
      by rewrite identity_default_filled, identity_value_filled.
    + rewrite default_filled_lookup_other.
      * by rewrite value_filled_lookup, bool_decide_eq_false_2.
      * intros (md & Heq & (entry & -> & Hin)%list_elem_of_fmap)%list_elem_of_fmap.
        apply Hj. rewrite Heq. by apply Hlisted.
  - destruct (value_filled_this data2 hs (default_filled entries (value_filled data1 hs w)))
      as [-> _].
    destruct (value_filled_this data2 hs w) as [-> _]. congruence.
  - by rewrite !value_filled_argparse, default_filled_argparse, value_filled_argparse.
Qed.

(** X5.  On every provider, resolving a second time gives the state that
    resolving once with the second data gives: the value fill overwrites
    the value of every parameter of the provider, so neither the data nor
    the defaults applied by an earlier call survive.  In particular the
    same data resolved twice leaves the state of the first resolution. *)
Theorem resolution_forgets_earlier_resolution
    (ds : list Declaration) (c : N) (objs : list CommandLineParameter)
    (rejects : Tokenizer) (data1 data2 : ICommandLineParserData) :
  _processParsedData data2
    (_processParsedData data1
       (run ds {| _keyCounter := c; heap := objs; this := constructor;
                  argparse_rejects := rejects |})).2
  = _processParsedData data2 (run ds {| _keyCounter := c; heap := objs; this := constructor;
                                        argparse_rejects := rejects |})
  ∧
  (_processParsedData data1
     (_processParsedData data1
        (run ds {| _keyCounter := c; heap := objs; this := constructor;
                   argparse_rejects := rejects |})).2).2
  = (_processParsedData data1
       (run ds {| _keyCounter := c; heap := objs; this := constructor;
                  argparse_rejects := rejects |})).2.
Proof.
  assert (Hlisted : entries_listed (run ds {| _keyCounter := c; heap := objs;
                                              this := constructor;
                                              argparse_rejects := rejects |})).
  { apply (run_invariant (λ _, True) entries_listed ds).
    - intros d w _. apply entries_listed_define.
    - by apply Forall_forall.
    - intros entry ?%elem_of_nil. done. }
  split; [by apply resolving_again|]. by rewrite resolving_again.
Qed.

(** ** An auto-generated key that meets an explicit one *)

(** X6.  A declaration without explicit key whose auto-generated key is
    already registered, as an explicit key of an earlier declaration, is
    refused with [DuplicateKeyError] although it asked for no key; the
    provider is unchanged, but the static counter has moved on, so that the
    same declaration made again gets the next key and, that key being free,
    gets past the key registry: its parameter object is created under the
    next key, and it returns unless the tokenizer refuses its switch. *)
Theorem auto_key_can_meet_explicit_key
    (d : Declaration) (w : World) (owner : string) :
  explicitKey_of d = None → validation_error d = None →
  _keys (this w) !! auto_key (_keyCounter w) = Some owner → owner ≠ EmptyString →
  _keys (this w) !! auto_key (N.succ (_keyCounter w)) = None →
  (define d w).1 = Throw (DuplicateKeyError (DuplicateKey_text (longName_of d) owner)) ∧
  this (define d w).2 = this w ∧
  heap (define d w).2 = heap w ∧
  _keyCounter (define d w).2 = N.succ (_keyCounter w) ∧
  (define d (define d w).2).1
  = (if tokenizer_refuses d (define d w).2
     then Throw ArgumentError
     else Normal (length (heap w))) ∧
  key_of (define d (define d w).2).2 (length (heap w))
  = Some (auto_key (N.succ (_keyCounter w))).
Proof.
  intros Hd Hvalid Hmeet Hne Hfree.
  assert (H1 : define d w
               = (Throw (DuplicateKeyError (DuplicateKey_text (longName_of d) owner)),
                  collided d w)).
  { rewrite define_eq, Hvalid. cbn zeta. rewrite Hd. cbn [requested_key].
    fold (auto_key (_keyCounter w)). by rewrite Hmeet, truthy_Some. }
  assert (H2 : define d (collided d w)
               = if tokenizer_refuses d (collided d w)
                 then (Throw ArgumentError, refused d (collided d w))
                 else (Normal (length (heap w)), declared d (collided d w))).
  { rewrite define_eq, Hvalid. cbn zeta. rewrite Hd. cbn [requested_key].
    unfold collided at 1 2 3. rewrite Hd. cbn [counter_after _keyCounter this heap].
    fold (auto_key (N.succ (_keyCounter w))). by rewrite Hfree. }
  rewrite H1. cbn [fst snd]. rewrite H2.
  split; [done|]. split; [done|]. split; [done|].
  split; [by unfold collided; cbn; rewrite Hd|].
  split; [by destruct (tokenizer_refuses d (collided d w))|].
  assert (Hkey : key_of (declared d (collided d w)) (length (heap w))
                 = Some (auto_key (N.succ (_keyCounter w)))).
  { etrans; [exact (key_of_declared_new d (collided d w))|].
    rewrite Hd. cbn. unfold collided. cbn. by rewrite Hd. }
  destruct (tokenizer_refuses d (collided d w)); exact Hkey.
Qed.

Lemma auto_key_can_meet_explicit_key_witness :
  (define (FlagParameter (flag_definition "--verbose"))
     (run [StringParameter sample_key_0] fresh_world)).1
  = Throw (DuplicateKeyError (DuplicateKey_text "--verbose" "--name"))
  ∧
  (define (FlagParameter (flag_definition "--verbose"))
     (define (FlagParameter (flag_definition "--verbose"))
        (run [StringParameter sample_key_0] fresh_world)).2).1
  = Normal 1.
Proof.
  destruct (auto_key_can_meet_explicit_key
              (FlagParameter (flag_definition "--verbose"))
              (run [StringParameter sample_key_0] fresh_world) "--name")
    as (Hfirst & _ & _ & _ & Hagain & _).
  - reflexivity.
  - reflexivity.
  - reflexivity.
  - discriminate.
  - reflexivity.
  - split; [exact Hfirst|]. etrans; [exact Hagain|reflexivity].
Defined.

(** ** A declaration the tokenizer refuses *)

(** X19.  A declaration that ends in the error of the tokenizer is not
    undone: no switch is registered and the metadata map is untouched, but
    the key stays registered to the long name of the declaration and the
    parameter object, holding that key, stays in the parameters list.  The
    same declaration made again with its explicit key therefore fails with
    a [DuplicateKeyError] that names the declaration itself as the owner. *)
Theorem tokenizer_refusal_leaves_the_key_registered (d : Declaration) (w : World) :
  (define d w).1 = Throw ArgumentError →
  longName_of d ≠ EmptyString →
  _argumentParser (this (define d w).2) = _argumentParser (this w) ∧
  _parameterMetadata (this (define d w).2) = _parameterMetadata (this w) ∧
  _parameters (this (define d w).2) = (_parameters (this w) ++ [length (heap w)])%list ∧
  key_of (define d w).2 (length (heap w)) = Some (requested_key (explicitKey_of d) w) ∧
  _keys (this (define d w).2)
  = <[requested_key (explicitKey_of d) w := longName_of d]> (_keys (this w)) ∧
  (is_Some (explicitKey_of d) →
   (define d (define d w).2).1
   = Throw (DuplicateKeyError (DuplicateKey_text (longName_of d) (longName_of d)))).
Proof.
  intros Hthrown Hname. rewrite define_eq in Hthrown. rewrite (define_eq d w).
  destruct (validation_error d); [discriminate|]. cbn zeta in *.
  destruct (truthy _); [discriminate|].
  destruct (tokenizer_refuses d w); [|discriminate]. cbn [snd].
  split; [done|]. split; [done|]. split; [done|]. split; [|split; [done|]].
  - change (key_of (refused d w)) with (key_of (declared d w)).
    apply key_of_declared_new.
  - intros [k Hk].
    rewrite (define_registered d (refused d w) k (longName_of d)); [done..| |done].
    rewrite refused_keys, declared_keys, Hk. cbn [requested_key].
    apply lookup_insert_eq.
Qed.

Lemma tokenizer_refusal_leaves_the_key_registered_witness :
  (define (StringParameter (string_definition "--name" (Some "k2") None None))
     (run [StringParameter sample_name] fresh_world)).1
  = Throw ArgumentError
  ∧
  (define (StringParameter (string_definition "--name" (Some "k2") None None))
     (define (StringParameter (string_definition "--name" (Some "k2") None None))
        (run [StringParameter sample_name] fresh_world)).2).1
  = Throw (DuplicateKeyError (DuplicateKey_text "--name" "--name")).
Proof.
  split; [reflexivity|].
  destruct (tokenizer_refusal_leaves_the_key_registered
              (StringParameter (string_definition "--name" (Some "k2") None None))
              (run [StringParameter sample_name] fresh_world))
    as (_ & _ & _ & _ & _ & Hagain).
  - reflexivity.
  - discriminate.
  - apply Hagain. by eexists.
Defined.

(** * Properties of the rush-pnpm launcher *)

(** ** The usage check *)

(** Derivatives are sound and complete for the strings matched. *)
Lemma matches_nil (r : RegExp) : nullable r = true ↔ matches r EmptyString.
Proof.
  split.
  - induction r as [| |ranges|r1 IH1 r2 IH2|r1 IH1 r2 IH2|r IH|r IH]; cbn;
      try discriminate.
    + intros _. constructor.
    + intros [H|H]%orb_true_iff; [apply matches_Alt_l|apply matches_Alt_r]; auto.
    + intros [H1 H2]%andb_true_iff.
      apply (matches_Seq r1 r2 EmptyString EmptyString); auto.
    + intros _. constructor.
    + intros H. apply (matches_Plus r EmptyString EmptyString); [auto|constructor].
  - intros H. remember EmptyString as s eqn:Hs.
    induction H as [|ranges c Hc|r1 r2 s H IH|r1 r2 s H IH
                    |r1 r2 s1 s2 H1 IH1 H2 IH2| |r s1 s2 H1 IH1 H2 IH2
                    |r s1 s2 H1 IH1 H2 IH2]; cbn; try done.
    + by rewrite IH.
    + rewrite IH by done. apply orb_true_r.
    + destruct s1; [|discriminate]. cbn in Hs. by rewrite IH1, IH2.
    + destruct s1; [|discriminate]. by apply IH1.
Qed.

Lemma matches_derivative (c : Ascii.ascii) (r : RegExp) (s : string) :
  matches (derivative c r) s ↔ matches r (String c s).
Proof.
  split.
  - revert s.
    induction r as [| |ranges|r1 IH1 r2 IH2|r1 IH1 r2 IH2|r IH|r IH]; intros s; cbn.
    + inversion 1.
    + inversion 1.
    + destruct (in_class ranges c) eqn:Hc; inversion 1. by constructor.
    + inversion 1; subst; [apply matches_Alt_l|apply matches_Alt_r]; auto.
    + inversion 1 as [| |? ? ? Hl|? ? ? Hr| | | |]; subst.
      * inversion Hl; subst.
        apply (matches_Seq r1 r2 (String c _)); auto.
      * destruct (nullable r1) eqn:Hn; [|inversion Hr].
        apply (matches_Seq r1 r2 EmptyString); [by apply matches_nil|auto].
    + inversion 1; subst. apply (matches_Star_more r (String c _)); auto.
    + inversion 1; subst. apply (matches_Plus r (String c _)); auto.
  - intros H. remember (String c s) as cs eqn:Hcs. revert c s Hcs.
    induction H as [|ranges c' Hc|r1 r2 s' H IH|r1 r2 s' H IH
                    |r1 r2 s1 s2 H1 IH1 H2 IH2| |r s1 s2 H1 IH1 H2 IH2
                    |r s1 s2 H1 IH1 H2 IH2]; intros c s Hcs; cbn; try discriminate.
    + injection Hcs as -> <-. rewrite Hc. constructor.
    + apply matches_Alt_l. by apply IH.
    + apply matches_Alt_r. by apply IH.
    + destruct s1 as [|c1 s1]; cbn in Hcs.
      * apply matches_Alt_r. rewrite (proj2 (matches_nil r1) H1). by apply IH2.
      * injection Hcs as -> <-. apply matches_Alt_l. constructor; auto.
    + destruct s1 as [|c1 s1]; cbn in Hcs.
      * by apply IH2.
      * injection Hcs as -> <-. constructor; auto.
    + destruct s1 as [|c1 s1]; cbn in Hcs.
      * by apply (IH2 c s).
      * injection Hcs as -> <-. constructor; auto.
Qed.

Lemma RegExp_test_matches (r : RegExp) (s : string) :
  RegExp_test r s = true ↔ matches r s.
Proof.
  revert r. induction s as [|c s IH]; intros r; cbn.
  - apply matches_nil.
  - rewrite IH. apply matches_derivative.
Qed.

(** A starred character class matches the strings made of its characters. *)
Lemma matches_Star_Class (ranges : list (nat * nat)) (s : string) :
  matches (Star (Class ranges)) s ↔
  Forall (λ c, in_class ranges c = true) (list_ascii_of_string s).
Proof.
  split.
  - intros H. remember (Star (Class ranges)) as r eqn:Hr.
    induction H as [| | | | | |r s1 s2 H1 _ H2 IH2|]; try discriminate; [constructor|].
    injection Hr as ->. inversion H1; subst. cbn. constructor; auto.
  - induction s as [|c s IH]; cbn; [constructor|].
    intros [Hc Hs]%Forall_cons.
    apply (matches_Star_more _ (String c EmptyString)); [by constructor|auto].
Qed.

Lemma list_ascii_of_string_app (s1 s2 : string) :
  list_ascii_of_string (s1 +:+ s2)
  = (list_ascii_of_string s1 ++ list_ascii_of_string s2)%list.
Proof.
  induction s1 as [|c s1 IH]; [done|].
  change (String c s1 +:+ s2) with (String c (s1 +:+ s2)). cbn. f_equal. exact IH.
Qed.

Lemma in_class_iff (ranges : list (nat * nat)) (c : Ascii.ascii) :
  in_class ranges c = true ↔
  ∃ lo hi, (lo, hi) ∈ ranges ∧ (lo ≤ Ascii.nat_of_ascii c ≤ hi)%nat.
Proof.
  unfold in_class. rewrite existsb_exists. split.
  - intros ([lo hi] & Hin%list_elem_of_In & [Hlo%Nat.leb_le Hhi%Nat.leb_le]%andb_true_iff).
    by exists lo, hi.
  - intros (lo & hi & Hin%list_elem_of_In & Hlo & Hhi). exists (lo, hi).
    split; [done|]. apply andb_true_iff. by rewrite !Nat.leb_le.
Qed.

(** X8.  The pattern that decides whether the first argument is a command
    verb, [/^[a-z]+([a-z0-9\-])*$/], accepts exactly the strings that start
    with a lowercase letter and otherwise hold only lowercase letters,
    digits and hyphens; the empty string, a leading digit or hyphen, an
    uppercase letter anywhere are refused. *)
Theorem command_verbs_are_lowercase_words (s : string) :
  is_command_verb s = true ↔
  ∃ c rest,
    s = String c rest ∧
    (97 ≤ Ascii.nat_of_ascii c ≤ 122)%nat ∧
    Forall (λ c', (97 ≤ Ascii.nat_of_ascii c' ≤ 122)%nat
                  ∨ (48 ≤ Ascii.nat_of_ascii c' ≤ 57)%nat
                  ∨ Ascii.nat_of_ascii c' = 45)
           (list_ascii_of_string rest).
Proof.
  unfold is_command_verb. rewrite RegExp_test_matches. unfold command_verb_pattern.
  assert (Hlower : ∀ c, in_class [(97, 122)] c = true ↔ (97 ≤ Ascii.nat_of_ascii c ≤ 122)%nat).
  { intros c. rewrite in_class_iff. split.
    - intros (lo & hi & [= -> ->]%list_elem_of_singleton & H). done.
    - intros H. exists 97, 122. split; [left|done]. }
  assert (Hverb : ∀ c, in_class [(97, 122); (48, 57); (45, 45)] c = true ↔
                       (97 ≤ Ascii.nat_of_ascii c ≤ 122)%nat
                       ∨ (48 ≤ Ascii.nat_of_ascii c ≤ 57)%nat
                       ∨ Ascii.nat_of_ascii c = 45).
  { intros c. rewrite in_class_iff. split.
    - intros (lo & hi & Hin & H).
      repeat (apply elem_of_cons in Hin as [[= -> ->]|Hin]; [lia|]).
      by apply elem_of_nil in Hin.
    - intros [H|[H|H]].
      + exists 97, 122. split; [left|done].
      + exists 48, 57. split; [right; left|done].
      + exists 45, 45. split; [do 2 right; left|lia]. }
  split.
  - inversion 1 as [| | | |? ? s1 s2 Hplus Hstar| | |]; subst.
    inversion Hplus as [| | | | | | |? a b Ha Hb]; subst.
    inversion Ha as [|? c Hc| | | | | |]; subst.
    exists c, (b +:+ s2). split; [done|]. split; [by apply Hlower|].
    rewrite list_ascii_of_string_app. apply Forall_app. split.
    + apply matches_Star_Class in Hb. eapply Forall_impl; [exact Hb|].
      intros c' Hc'. cbn beta in Hc'. left. by apply Hlower.
    + apply matches_Star_Class in Hstar. eapply Forall_impl; [exact Hstar|].
      intros c' Hc'. cbn beta in Hc'. by apply Hverb.
  - intros (c & rest & -> & Hc & Hrest).
    apply (matches_Seq _ _ (String c EmptyString) rest).
    + apply (matches_Plus _ (String c EmptyString) EmptyString); [|constructor].
      constructor. by apply Hlower.
    + apply matches_Star_Class. eapply Forall_impl; [exact Hrest|].
      intros c' Hc'. cbn beta in Hc'. by apply Hverb.
Qed.

(** X9.  The usage check throws nothing but [AlreadyReportedError], and it
    throws it exactly when it has written an error line to the terminal: a
    refusal is always explained, and a call that returns has written no
    error line (warnings at most). *)
Theorem usage_check_reports_what_it_refuses (pnpmArgs : list string) :
  ((_validatePnpmUsage pnpmArgs).2 = Threw AlreadyReportedError ∧
   existsb is_error_line (_validatePnpmUsage pnpmArgs).1 = true)
  ∨
  ((∃ left, (_validatePnpmUsage pnpmArgs).2 = Returned left) ∧
   existsb is_error_line (_validatePnpmUsage pnpmArgs).1 = false).
Proof.
  unfold _validatePnpmUsage. cbv zeta.
  generalize (_knownCommandMap !! default EmptyString (pnpmArgs !! 0)). intros kind.
  repeat case_match; cbn [fst snd existsb is_error_line orb];
    first [left; split; reflexivity | right; split; [eexists|]; reflexivity].
Qed.

(** What the usage check leaves of the arguments when it returns. *)
Lemma usage_check_leaves (pnpmArgs left : list string) :
  (_validatePnpmUsage pnpmArgs).2 = Returned left →
  pnpmArgs = RUSH_SKIP_CHECKS_PARAMETER :: left
  ∨ (asks_for_help pnpmArgs = true ∧ left = pnpmArgs)
  ∨ ((RUSH_SKIP_CHECKS_PARAMETER ∉ pnpmArgs) ∧ left = pnpmArgs)
  ∨ (∃ verb rest, is_command_verb verb = true ∧
                  pnpmArgs = verb :: RUSH_SKIP_CHECKS_PARAMETER :: rest ∧
                  left = verb :: rest).
Proof.
  unfold _validatePnpmUsage. cbv zeta.
  generalize (_knownCommandMap !! default EmptyString (pnpmArgs !! 0)). intros kind.
  destruct (bool_decide_reflect (pnpmArgs !! 0 = Some RUSH_SKIP_CHECKS_PARAMETER)) as [H0|H0].
  { intros [= <-]. left. destruct pnpmArgs as [|a rest]; [done|]. cbn in H0. by injection H0 as ->. }
  destruct pnpmArgs as [|verb rest]; cbn [length Nat.eqb].
  { intros [= <-]. right. right. left. split; [|done]. by intros ?%elem_of_nil. }
  fold (asks_for_help (verb :: rest)).
  destruct (asks_for_help (verb :: rest)) eqn:Hhelp.
  { intros [= <-]. right. by left. }
  cbn [lookup list_lookup default from_option id].
  assert (Hverb : verb ≠ RUSH_SKIP_CHECKS_PARAMETER) by (intros ->; by apply H0).
  destruct (_ && _) eqn:Hversion.
  { intros [= <-]. right. right. left. split; [|done].
    apply andb_true_iff in Hversion as [Hlen _].
    destruct rest; [|done]. by intros Heq%list_elem_of_singleton. }
  destruct (is_command_verb verb) eqn:Hre; cbn [negb]; [|cbn [snd]; intros [=]].
  destruct (bool_decide _) eqn:H1.
  { apply bool_decide_eq_true in H1. cbn [snd]. intros [= <-]. right. right. right.
    destruct rest as [|b rest]; [done|].
    cbn in H1. injection H1 as ->. by exists verb, rest. }
  unfold includes.
  destruct (bool_decide (RUSH_SKIP_CHECKS_PARAMETER ∈ verb :: rest)) eqn:Hin;
    [cbn [snd]; intros [=]|].
  apply bool_decide_eq_false in Hin.
  destruct (bool_decide (verb ∈ _)); [cbn [snd]; intros [=]|].
  destruct kind as [[]|]; cbn [snd]; intros [= <-]; right; right; by left.
Qed.

Lemma occurrences_elem_of (x : string) (l : list string) :
  x ∈ l → (1 ≤ occurrences x l)%nat.
Proof.
  intros Hx. unfold occurrences.
  assert (Hin : x ∈ filter (λ a, a = x) l) by (by apply list_elem_of_filter).
  destruct (filter (λ a, a = x) l); [by apply elem_of_nil in Hin|cbn; lia].
Qed.

(** X10.  What the usage check leaves of the arguments when it returns:
    the arguments as given, or the arguments without the bypass option
    that stood in the first place, or in the second place after a command
    verb; it removes one occurrence at most.  The bypass option is
    therefore still among them only if a help option made the check return
    before it looked, or if the option was given more than once. *)
Theorem usage_check_consumes_the_bypass_option (pnpmArgs left : list string) :
  (_validatePnpmUsage pnpmArgs).2 = Returned left →
  (pnpmArgs = RUSH_SKIP_CHECKS_PARAMETER :: left
   ∨ (asks_for_help pnpmArgs = true ∧ left = pnpmArgs)
   ∨ ((RUSH_SKIP_CHECKS_PARAMETER ∉ pnpmArgs) ∧ left = pnpmArgs)
   ∨ (∃ verb rest, is_command_verb verb = true ∧
                   pnpmArgs = verb :: RUSH_SKIP_CHECKS_PARAMETER :: rest ∧
                   left = verb :: rest))
  ∧
  (RUSH_SKIP_CHECKS_PARAMETER ∈ left →
   asks_for_help pnpmArgs = true
   ∨ (2 ≤ occurrences RUSH_SKIP_CHECKS_PARAMETER pnpmArgs)%nat).
Proof.
  intros Hleaves%usage_check_leaves. split; [done|]. intros Hstill.
  destruct Hleaves as [->|[[Hhelp _]|[[Hnot ->]|(verb & rest & _ & -> & ->)]]].
  - right. apply occurrences_elem_of in Hstill. unfold occurrences in *.
    rewrite filter_cons_True by done. cbn. lia.
  - by left.
  - done.
  - right. apply occurrences_elem_of in Hstill. unfold occurrences in *.
    rewrite filter_cons in Hstill. rewrite filter_cons, (filter_cons_True _ RUSH_SKIP_CHECKS_PARAMETER)
      by done.
    destruct (decide (verb = RUSH_SKIP_CHECKS_PARAMETER)); cbn in *; lia.
Qed.

Lemma usage_check_consumes_the_bypass_option_witness :
  (_validatePnpmUsage ["install"; "--rush-skip-checks"; "left-pad"]).2
  = Returned ["install"; "left-pad"]
  ∧
  (["install"; "--rush-skip-checks"; "left-pad"]
   = RUSH_SKIP_CHECKS_PARAMETER :: ["install"; "left-pad"]
   ∨ (asks_for_help ["install"; "--rush-skip-checks"; "left-pad"] = true ∧
      ["install"; "left-pad"] = ["install"; "--rush-skip-checks"; "left-pad"])
   ∨ ((RUSH_SKIP_CHECKS_PARAMETER ∉ ["install"; "--rush-skip-checks"; "left-pad"]) ∧
      ["install"; "left-pad"] = ["install"; "--rush-skip-checks"; "left-pad"])
   ∨ (∃ verb rest, is_command_verb verb = true ∧
                   ["install"; "--rush-skip-checks"; "left-pad"]
                   = verb :: RUSH_SKIP_CHECKS_PARAMETER :: rest ∧
                   ["install"; "left-pad"] = verb :: rest)).
Proof.
  split; [reflexivity|].
  exact (proj1 (usage_check_consumes_the_bypass_option
                  ["install"; "--rush-skip-checks"; "left-pad"] ["install"; "left-pad"]
                  eq_refl)).
Defined.

(** Every command of the table is a command verb, and the five commands
    the check refuses before it consults the table are blocked there too. *)
Lemma known_command (verb : string) (kind : CommandKind) :
  _knownCommandMap !! verb = Some kind →
  is_command_verb verb = true ∧
  (kind ≠ Blocked →
   bool_decide (verb ∈ ["add"; "install"; "i"; "install-test"; "it"]) = false).
Proof.
  unfold _knownCommandMap. cbn [foldl].
  repeat (rewrite lookup_insert; case_decide;
          [ intros [= <-]; subst verb;
            split; [reflexivity | first [reflexivity | by intros []]]
          | ]).
  by rewrite lookup_empty.
Qed.

(** X11.  Without the bypass option, a help option or a lone version
    option, the usage check lets the arguments through, unchanged, exactly
    when the first argument is a command the table marks [KnownSafe] or
    [ShowWarning]; for every other first argument, a blocked command, an
    unknown one, something that is no command verb, it throws
    [AlreadyReportedError]. *)
Theorem usage_check_lets_only_listed_commands_through (verb : string) (rest : list string) :
  (RUSH_SKIP_CHECKS_PARAMETER ∉ verb :: rest) →
  asks_for_help (verb :: rest) = false →
  ¬ (rest = [] ∧ (verb = "-v" ∨ verb = "--version")) →
  (_validatePnpmUsage (verb :: rest)).2
  = match _knownCommandMap !! verb with
    | Some KnownSafe | Some ShowWarning => Returned (verb :: rest)
    | _ => Threw AlreadyReportedError
    end.
Proof.
  intros Hskip Hhelp Hversion.
  unfold _validatePnpmUsage. cbv zeta.
  change (default EmptyString ((verb :: rest) !! 0)) with verb.
  pose proof (known_command verb) as Hknown.
  destruct (_knownCommandMap !! verb) as [kind|]; clear -Hskip Hhelp Hversion Hknown.
  all: rewrite bool_decide_eq_false_2
         by (intros [= ->]; apply Hskip; left).
  all: cbn [length Nat.eqb]; fold (asks_for_help (verb :: rest)); rewrite Hhelp.
  all: assert ((length rest =? 0)%nat && (String.eqb verb "-v" || String.eqb verb "--version")
               = false) as ->
         by (apply not_true_is_false;
             intros [Hlen [?%String.eqb_eq | ?%String.eqb_eq]%orb_true_iff]%andb_true_iff;
             apply Hversion; (split; [by destruct rest | auto])).
  all: rewrite (bool_decide_eq_false_2 ((verb :: rest) !! 1 = Some RUSH_SKIP_CHECKS_PARAMETER))
         by (intros H1; apply Hskip; right; by eapply list_elem_of_lookup_2).
  all: unfold includes; rewrite (bool_decide_eq_false_2 _ Hskip).
  - destruct (Hknown kind eq_refl) as [-> Hfive]. cbn [negb].
    destruct kind; [by rewrite Hfive|by rewrite Hfive|].
    by destruct (bool_decide _).
  - destruct (is_command_verb verb); cbn [negb]; [|done].
    by destruct (bool_decide _).
Qed.

Lemma usage_check_lets_only_listed_commands_through_witness :
  (_validatePnpmUsage ["import"; "--from"; "yarn"]).2 = Threw AlreadyReportedError ∧
  (_validatePnpmUsage ["publish"; "--tag"; "next"]).2 = Returned ["publish"; "--tag"; "next"].
Proof.
  split.
  - rewrite (usage_check_lets_only_listed_commands_through "import" ["--from"; "yarn"]).
    + reflexivity.
    + intros H. repeat (apply elem_of_cons in H as [H|H]; [discriminate|]).
      by apply elem_of_nil in H.
    + reflexivity.
    + by intros [? _].
  - rewrite (usage_check_lets_only_listed_commands_through "publish" ["--tag"; "next"]).
    + reflexivity.
    + intros H. repeat (apply elem_of_cons in H as [H|H]; [discriminate|]).
      by apply elem_of_nil in H.
    + reflexivity.
    + by intros [? _].
Defined.

(** ** The environment of the spawned tool *)

Lemma set_environmentVariables_other (vars : list (string * (string * bool)))
    (m : gmap string string) (k : string) :
  k ∉ vars.*1 → set_environmentVariables vars m !! k = m !! k.
Proof.
  revert m. induction vars as [|[k' [v' o]] vars IH]; intros m Hk; [done|].
  cbn in Hk. apply not_elem_of_cons in Hk as [Hne Hk].
  unfold set_environmentVariables in *. cbn [foldl]. rewrite IH by done.
  destruct o; [by rewrite lookup_insert_ne|].
  destruct (m !! k'); [done|by rewrite lookup_insert_ne].
Qed.

Lemma set_environmentVariables_kept (vars : list (string * (string * bool)))
    (m : gmap string string) (k v : string) :
  m !! k = Some v →
  (∀ v' o, (k, (v', o)) ∈ vars → o = false) →
  set_environmentVariables vars m !! k = Some v.
Proof.
  revert m. induction vars as [|[k' [v' o]] vars IH]; intros m Hm Hno; [done|].
  unfold set_environmentVariables in *. cbn [foldl]. apply IH.
  - destruct (decide (k' = k)) as [->|Hne].
    + rewrite (Hno v' o) by left. by rewrite Hm.
    + destruct o; [by rewrite lookup_insert_ne|].
      destruct (m !! k'); [done|by rewrite lookup_insert_ne].
  - intros v'' o' Hin. apply (Hno v''). by right.
Qed.

Lemma set_environmentVariables_defined (vars : list (string * (string * bool)))
    (m : gmap string string) (k : string) :
  is_Some (m !! k) → is_Some (set_environmentVariables vars m !! k).
Proof.
  revert m. induction vars as [|[k' [v' o]] vars IH]; intros m Hm; [done|].
  unfold set_environmentVariables in *. cbn [foldl]. apply IH.
  destruct (decide (k' = k)) as [->|Hne].
  - destruct o; [by rewrite lookup_insert_eq|].
    destruct Hm as [v Hv]. rewrite Hv. by rewrite Hv.
  - destruct o; [by rewrite lookup_insert_ne|].
    destruct (m !! k'); [done|by rewrite lookup_insert_ne].
Qed.

Lemma set_environmentVariables_override (before after : list (string * (string * bool)))
    (m : gmap string string) (k v : string) :
  (∀ v' o, (k, (v', o)) ∈ after → o = false) →
  set_environmentVariables (before ++ (k, (v, true)) :: after) m !! k = Some v.
Proof.
  intros Hafter. unfold set_environmentVariables. rewrite foldl_app. cbn [foldl].
  apply (set_environmentVariables_kept after); [|done]. by rewrite lookup_insert_eq.
Qed.

(** X12.  A variable of the process environment reaches the spawned tool
    with its value, unless it is one of the two variables the launcher sets
    itself or the configuration has an entry for it that is marked
    [override]: an entry that is not marked only supplies a value for a
    variable that has none. *)
Theorem environment_variable_is_kept_without_override
    (rushConfiguration : RushConfiguration) (env : gmap string string) (k v : string) :
  env !! k = Some v →
  k ≠ "NPM_CONFIG_WORKSPACE_DIR" → k ≠ "NPM_CONFIG_STORE_DIR" →
  (∀ vars v' o, environmentVariables (pnpmOptions rushConfiguration) = Some vars →
                (k, (v', o)) ∈ vars → o = false) →
  pnpmEnvironmentMap rushConfiguration env !! k = Some v.
Proof.
  intros Hk Hw Hs Hno. unfold pnpmEnvironmentMap. cbv zeta.
  assert (Hbase : (if truthy (pnpmStorePath (pnpmOptions rushConfiguration))
                   then <["NPM_CONFIG_STORE_DIR" :=
                            default EmptyString (pnpmStorePath (pnpmOptions rushConfiguration))]>
                          (<["NPM_CONFIG_WORKSPACE_DIR" := commonTempFolder rushConfiguration]> env)
                   else <["NPM_CONFIG_WORKSPACE_DIR" := commonTempFolder rushConfiguration]> env)
                  !! k = Some v).
  { destruct (truthy _); by rewrite ?lookup_insert_ne by done. }
  destruct (environmentVariables (pnpmOptions rushConfiguration)) as [vars|]; [|done].
  apply set_environmentVariables_kept; [done|]. intros v' o. by apply Hno.
Qed.

Lemma environment_variable_is_kept_without_override_witness :
  pnpmEnvironmentMap sample_configuration
    {["PATH" := "/usr/bin"; "NODE_ENV" := "development"]} !! "PATH"
  = Some "/usr/bin".
Proof.
  apply (environment_variable_is_kept_without_override sample_configuration
           {["PATH" := "/usr/bin"; "NODE_ENV" := "development"]} "PATH" "/usr/bin").
  - reflexivity.
  - discriminate.
  - discriminate.
  - intros vars v' o [= <-] Hin.
    apply elem_of_cons in Hin as [Heq|Hin]; [injection Heq as _ Ho; exact Ho|].
    apply elem_of_cons in Hin as [Heq|Hin]; [discriminate Heq|].
    by apply elem_of_nil in Hin.
Defined.

(** X13.  An entry of the configuration marked [override] decides the value
    the spawned tool sees for its variable, whatever the process
    environment holds and even for the variables the launcher sets itself,
    provided no later entry for the same variable is marked too. *)
Theorem override_entry_decides
    (rushConfiguration : RushConfiguration) (env : gmap string string)
    (before after : list (string * (string * bool))) (k v : string) :
  environmentVariables (pnpmOptions rushConfiguration)
  = Some (before ++ (k, (v, true)) :: after)%list →
  (∀ v' o, (k, (v', o)) ∈ after → o = false) →
  pnpmEnvironmentMap rushConfiguration env !! k = Some v.
Proof.
  intros Hvars Hafter. unfold pnpmEnvironmentMap. cbv zeta. rewrite Hvars.
  by apply set_environmentVariables_override.
Qed.

Lemma override_entry_decides_witness :
  pnpmEnvironmentMap sample_configuration
    {["PATH" := "/usr/bin"; "NODE_ENV" := "development"]} !! "NODE_ENV"
  = Some "production".
Proof.
  apply (override_entry_decides sample_configuration
           {["PATH" := "/usr/bin"; "NODE_ENV" := "development"]}
           [("PATH", ("/opt/bin", false))] [] "NODE_ENV" "production").
  - reflexivity.
  - intros v' o Hin. by apply elem_of_nil in Hin.
Defined.

(** X14.  The spawned tool always finds [NPM_CONFIG_WORKSPACE_DIR] defined;
    it is the common temp folder of the configuration unless an entry of
    the configuration marked [override] names that variable. *)
Theorem workspace_dir_is_the_common_temp_folder
    (rushConfiguration : RushConfiguration) (env : gmap string string) :
  is_Some (pnpmEnvironmentMap rushConfiguration env !! "NPM_CONFIG_WORKSPACE_DIR") ∧
  ((∀ vars v' o, environmentVariables (pnpmOptions rushConfiguration) = Some vars →
                 ("NPM_CONFIG_WORKSPACE_DIR", (v', o)) ∈ vars → o = false) →
   pnpmEnvironmentMap rushConfiguration env !! "NPM_CONFIG_WORKSPACE_DIR"
   = Some (commonTempFolder rushConfiguration)).
Proof.
  unfold pnpmEnvironmentMap. cbv zeta.
  assert (Hbase : (if truthy (pnpmStorePath (pnpmOptions rushConfiguration))
                   then <["NPM_CONFIG_STORE_DIR" :=
                            default EmptyString (pnpmStorePath (pnpmOptions rushConfiguration))]>
                          (<["NPM_CONFIG_WORKSPACE_DIR" := commonTempFolder rushConfiguration]> env)
                   else <["NPM_CONFIG_WORKSPACE_DIR" := commonTempFolder rushConfiguration]> env)
                  !! "NPM_CONFIG_WORKSPACE_DIR" = Some (commonTempFolder rushConfiguration)).
  { destruct (truthy _); [rewrite lookup_insert_ne by done|]; by rewrite lookup_insert_eq. }
  destruct (environmentVariables (pnpmOptions rushConfiguration)) as [vars|]; [|by split; [eexists|]].
  split.
  - apply set_environmentVariables_defined. by rewrite Hbase.
  - intros Hno. apply set_environmentVariables_kept; [done|].
    intros v' o. by apply Hno.
Qed.

Lemma workspace_dir_is_the_common_temp_folder_witness :
  pnpmEnvironmentMap sample_configuration
    {["PATH" := "/usr/bin"; "NODE_ENV" := "development"]} !! "NPM_CONFIG_WORKSPACE_DIR"
  = Some "/repo/common/temp".
Proof.
  apply (workspace_dir_is_the_common_temp_folder sample_configuration
           {["PATH" := "/usr/bin"; "NODE_ENV" := "development"]}).
  intros vars v' o [= <-] Hin.
  apply elem_of_cons in Hin as [Heq|Hin]; [discriminate Heq|].
  apply elem_of_cons in Hin as [Heq|Hin]; [discriminate Heq|].
  by apply elem_of_nil in Hin.
Defined.

(** ** The launcher *)

(** What the usage check wrote, by the way it ended. *)
Lemma usage_check_lines (pnpmArgs : list string) :
  match (_validatePnpmUsage pnpmArgs).2 with
  | Threw e =>
      e = AlreadyReportedError ∧ existsb is_error_line (_validatePnpmUsage pnpmArgs).1 = true
  | Returned _ => existsb is_error_line (_validatePnpmUsage pnpmArgs).1 = false
  end.
Proof.
  enough (((_validatePnpmUsage pnpmArgs).2 = Threw AlreadyReportedError ∧
           existsb is_error_line (_validatePnpmUsage pnpmArgs).1 = true)
          ∨ ((∃ left, (_validatePnpmUsage pnpmArgs).2 = Returned left) ∧
             existsb is_error_line (_validatePnpmUsage pnpmArgs).1 = false))
    as [[-> ->]|[[left ->] ->]]; [done..|].
  unfold _validatePnpmUsage. cbv zeta.
  generalize (_knownCommandMap !! default EmptyString (pnpmArgs !! 0)). intros kind.
  repeat case_match; cbn [fst snd existsb is_error_line orb];
    first [left; split; reflexivity | right; split; [eexists|]; reflexivity].
Qed.

(** What the usage check lets through when neither the bypass option nor a
    help option is among the arguments. *)
Lemma usage_check_returned (pnpmArgs left : list string) :
  (_validatePnpmUsage pnpmArgs).2 = Returned left →
  (RUSH_SKIP_CHECKS_PARAMETER ∉ pnpmArgs) →
  asks_for_help pnpmArgs = false →
  left = pnpmArgs ∧
  (pnpmArgs = [] ∨ pnpmArgs = ["-v"] ∨ pnpmArgs = ["--version"] ∨
   ∃ verb rest, pnpmArgs = verb :: rest ∧
                (_knownCommandMap !! verb = Some KnownSafe ∨
                 _knownCommandMap !! verb = Some ShowWarning)).
Proof.
  unfold _validatePnpmUsage. cbv zeta.
  generalize _knownCommandMap. intros table Hret Hskip Hhelp. revert Hret.
  fold (asks_for_help pnpmArgs). rewrite Hhelp.
  destruct (bool_decide_reflect (pnpmArgs !! 0 = Some RUSH_SKIP_CHECKS_PARAMETER)) as [H0|H0].
  { exfalso. apply Hskip. by eapply list_elem_of_lookup_2. }
  destruct pnpmArgs as [|verb rest]; cbn [length Nat.eqb].
  { cbn [snd]. intros [= <-]. split; [done|by left]. }
  cbn [lookup list_lookup default from_option id].
  destruct (_ && _) eqn:Hversion.
  { cbn [snd]. intros [= <-]. split; [done|].
    apply andb_true_iff in Hversion as [Hlen Hv].
    destruct rest; [|done].
    apply orb_true_iff in Hv as [->%String.eqb_eq | ->%String.eqb_eq]; auto. }
  destruct (is_command_verb verb); cbn [negb]; [|cbn [snd]; intros [=]].
  destruct (bool_decide _) eqn:H1.
  { apply bool_decide_eq_true in H1. exfalso. apply Hskip. right.
    by eapply list_elem_of_lookup_2. }
  unfold includes. rewrite (bool_decide_eq_false_2 _ Hskip).
  destruct (bool_decide (verb ∈ _)); [cbn [snd]; intros [=]|].
  destruct (table !! verb) as [[]|] eqn:Hkind; cbn [snd]; intros [= <-].
  - split; [done|]. do 3 right. exists verb, rest. auto.
  - split; [done|]. do 3 right. exists verb, rest. auto.
Qed.

(** The case analysis of the [try] block: the configuration, the package
    manager, the workspace setting, the two files, the usage check. *)
Ltac launch_cases host :=
  unfold launch, launch_try; cbv zeta;
  destruct (rushJson host) as [[cfg|thrown]|] eqn:Hjson;
  [ destruct (String.eqb (packageManager cfg) "pnpm") eqn:Hpnpm; cbn [negb];
    [ destruct (useWorkspaces (pnpmOptions cfg)) eqn:Hworkspaces; cbn [negb];
      [ destruct (FileSystem_exists host
                    (path_join host (commonTempFolder cfg) "pnpm-workspace.yaml"))
          eqn:Hfile; cbn [negb];
        [ destruct (FileSystem_exists host (packageManagerToolFilename cfg))
            eqn:Htool; cbn [negb];
          [ pose proof (usage_check_lines (drop 2 (argv host))) as Hlines;
            destruct (_validatePnpmUsage (drop 2 (argv host)))
              as [lines [pnpmArgs|thrown]] eqn:Hcheck;
            cbn [fst snd] in Hlines
          | ]
        | ]
      | ]
    | ]
  | | ].

(** X15.  The exit code the launcher leaves is the status the tool
    completed with, and 1 in every other case: when the tool was not
    started, when starting it threw or reported an error, when it completed
    without a status. *)
Theorem exit_code_is_the_status_of_the_tool_or_one (host : Host) :
  exitCode (launch host) = default 1%Z (spawned (launch host) ≫= pnpm_status host).
Proof.
  launch_cases host; try reflexivity.
  cbn [exitCode spawned mbind option_bind]. unfold pnpm_status.
  cbn [spawn_filename spawn_args spawn_environmentMap].
  destruct (Executable_spawnSync host _ _ _) as [result|e]; [|reflexivity].
  destruct (spawn_error result); [reflexivity|].
  by destruct (spawn_status result).
Qed.

(** X16.  The tool is started exactly when the configuration was found and
    loaded, names PNPM as the package manager and enables workspaces, the
    workspace file and the tool both exist, and the usage check returned;
    it is then started from the configured file, with the arguments as the
    usage check left them and the environment computed from the
    configuration. *)
Theorem tool_is_started_iff_the_checks_pass (host : Host) (call : SpawnCall) :
  spawned (launch host) = Some call ↔
  ∃ rushConfiguration,
    rushJson host = Some (Returned rushConfiguration) ∧
    packageManager rushConfiguration = "pnpm" ∧
    useWorkspaces (pnpmOptions rushConfiguration) = true ∧
    FileSystem_exists host
      (path_join host (commonTempFolder rushConfiguration) "pnpm-workspace.yaml") = true ∧
    FileSystem_exists host (packageManagerToolFilename rushConfiguration) = true ∧
    (_validatePnpmUsage (drop 2 (argv host))).2 = Returned (spawn_args call) ∧
    spawn_filename call = packageManagerToolFilename rushConfiguration ∧
    spawn_environmentMap call = pnpmEnvironmentMap rushConfiguration (process_env host).
Proof.
  split.
  - launch_cases host; cbn [spawned]; intros [= <-].
    exists cfg. apply String.eqb_eq in Hpnpm. by repeat split.
  - intros (cfg & Hjson & Hpnpm%String.eqb_eq & Hworkspaces & Hfile & Htool & Hcheck & Hname & Henv).
    unfold launch, launch_try. cbv zeta.
    rewrite Hjson, Hpnpm, Hworkspaces, Hfile, Htool. cbn [negb].
    destruct (_validatePnpmUsage (drop 2 (argv host))) as [lines [pnpmArgs|thrown]];
      cbn [snd] in Hcheck; [|discriminate Hcheck].
    injection Hcheck as ->. cbn [spawned].
    destruct call as [filename args environmentMap].
    cbn [spawn_filename spawn_args spawn_environmentMap] in *. by subst.
Qed.

Lemma tool_is_started_iff_the_checks_pass_witness :
  spawned (launch (sample_host ["list"; "--depth"; "0"] 0))
  = Some {| spawn_filename := "/repo/common/temp/pnpm-local/pnpm";
            spawn_args := ["list"; "--depth"; "0"];
            spawn_environmentMap :=
              pnpmEnvironmentMap sample_configuration
                {["PATH" := "/usr/bin"; "NODE_ENV" := "development"]} |}.
Proof.
  apply (tool_is_started_iff_the_checks_pass (sample_host ["list"; "--depth"; "0"] 0)).
  exists sample_configuration. repeat split; reflexivity.
Defined.

(** X17.  Unless the arguments hold the bypass option or a help option,
    the tool is started only with no arguments at all, with a lone version
    option, or with a command the table marks [KnownSafe] or [ShowWarning],
    and it receives the arguments unchanged: a blocked or an unknown
    command never reaches it. *)
Theorem tool_runs_only_listed_commands (host : Host) (call : SpawnCall) :
  spawned (launch host) = Some call →
  (RUSH_SKIP_CHECKS_PARAMETER ∉ drop 2 (argv host)) →
  asks_for_help (drop 2 (argv host)) = false →
  spawn_args call = drop 2 (argv host) ∧
  (drop 2 (argv host) = [] ∨ drop 2 (argv host) = ["-v"] ∨ drop 2 (argv host) = ["--version"] ∨
   ∃ verb rest, drop 2 (argv host) = verb :: rest ∧
                (_knownCommandMap !! verb = Some KnownSafe ∨
                 _knownCommandMap !! verb = Some ShowWarning)).
Proof.
  intros Hspawned Hskip Hhelp.
  apply (usage_check_returned (drop 2 (argv host)) (spawn_args call)); [|done..].
  revert Hspawned. launch_cases host; cbn [spawned]; intros [= <-].
  reflexivity.
Qed.

Lemma tool_runs_only_listed_commands_witness :
  ["list"; "--depth"; "0"] = drop 2 (argv (sample_host ["list"; "--depth"; "0"] 0)) ∧
  (drop 2 (argv (sample_host ["list"; "--depth"; "0"] 0)) = [] ∨
   drop 2 (argv (sample_host ["list"; "--depth"; "0"] 0)) = ["-v"] ∨
   drop 2 (argv (sample_host ["list"; "--depth"; "0"] 0)) = ["--version"] ∨
   ∃ verb rest, drop 2 (argv (sample_host ["list"; "--depth"; "0"] 0)) = verb :: rest ∧
                (_knownCommandMap !! verb = Some KnownSafe ∨
                 _knownCommandMap !! verb = Some ShowWarning)).
Proof.
  apply (tool_runs_only_listed_commands (sample_host ["list"; "--depth"; "0"] 0)
           {| spawn_filename := "/repo/common/temp/pnpm-local/pnpm";
              spawn_args := ["list"; "--depth"; "0"];
              spawn_environmentMap :=
                pnpmEnvironmentMap sample_configuration
                  {["PATH" := "/usr/bin"; "NODE_ENV" := "development"]} |}).
  - reflexivity.
  - intros H. repeat (apply elem_of_cons in H as [H|H]; [discriminate|]).
    by apply elem_of_nil in H.
  - reflexivity.
Defined.

(** X18.  The launcher does not fail in silence.  Unless the host's own
    code threw [AlreadyReportedError] in this run (and so has reported the
    failure itself), an error line is on the terminal exactly when the exit
    code is not the status of a completed tool. *)
Theorem failure_is_reported_on_the_terminal (host : Host) :
  ¬ host_already_reported host →
  existsb is_error_line (terminal (launch host)) = true ↔
  spawned (launch host) ≫= pnpm_status host = None.
Proof.
  intros Hhost. launch_cases host; cbn [terminal spawned mbind option_bind].
  - unfold pnpm_status. cbn [spawn_filename spawn_args spawn_environmentMap].
    rewrite existsb_app, Hlines. cbn [orb].
    destruct (Executable_spawnSync host _ _ _) as [result|[|message]] eqn:Hspawn.
    + destruct (spawn_error result); [done|]. by destruct (spawn_status result).
    + exfalso. apply Hhost. right.
      exists {| spawn_filename := packageManagerToolFilename cfg;
                spawn_args := pnpmArgs;
                spawn_environmentMap := pnpmEnvironmentMap cfg (process_env host) |}.
      split; [|exact Hspawn].
      unfold launch, launch_try. cbv zeta.
      rewrite Hjson, Hpnpm, Hworkspaces, Hfile, Htool. cbn [negb].
      by rewrite Hcheck.
    + done.
  - destruct Hlines as [-> Hlines]. by rewrite existsb_app, Hlines.
  - done.
  - done.
  - done.
  - done.
  - destruct thrown as [|message]; [|done]. exfalso. apply Hhost. by left.
  - done.
Qed.

Lemma failure_is_reported_on_the_terminal_witness :
  existsb is_error_line (terminal (launch (sample_host ["install"] 0))) = true ↔
  spawned (launch (sample_host ["install"] 0)) ≫= pnpm_status (sample_host ["install"] 0) = None.
Proof.
  apply (failure_is_reported_on_the_terminal (sample_host ["install"] 0)).
  intros [Hjson | (call & _ & Hspawn)]; discriminate.
Defined.
